(** * go-clamd: the protocol engine of a clamd client, embedded in Rocq

    Shallow embedding of [conn.go] (framing, response reading, the response
    parser and the two dialers) and of the command layer built on it
    ([newConnection], [simpleCommand], [Ping], [Stats], [Reload],
    [ScanStream]).

    Conventions.
    - A Go [string] is a sequence of bytes: [String.string], whose
      characters are the 8-bit [ascii].  [resultRegex] works on runes, but
      every literal of the pattern is ASCII and an ASCII byte is never part
      of a multi-byte rune, so group boundaries computed on bytes and on
      runes coincide.
    - Go's [int] is modelled as [Z]; the one place where its width matters
      is [strconv.Atoi], whose range check is written out ([intSize]).
    - A [[]byte] is a [list Z] of values in [0, 255]; the conversion
      [byte(x)] is written out as [x mod 256].
    - A run-time fault (nil dereference, slice out of range) is the
      [Panic] outcome.
    - A channel that is written by the reader goroutine and then closed is
      the list of the records sent on it, in order. *)

From Stdlib Require Import List Bool Arith ZArith Lia Ascii String.
Import ListNotations.

Local Open Scope string_scope.
Local Open Scope list_scope.

Notation "s1 +++ s2" := (String.append s1 s2)
  (at level 60, right associativity) : string_scope.

(* ================================================================== *)
(** ** Strings: the helpers of package [strings] the code calls *)

Module GoStrings.

(** [strings.HasPrefix(s, prefix)] *)
Definition HasPrefix (s prefix : string) : bool := String.prefix prefix s.

(** membership of a byte in a cutset *)
Fixpoint inCutset (c : ascii) (cutset : string) : bool :=
  match cutset with
  | EmptyString => false
  | String d rest => Ascii.eqb c d || inCutset c rest
  end.

(** [strings.TrimLeft(s, cutset)] *)
Fixpoint TrimLeft (s cutset : string) : string :=
  match s with
  | EmptyString => EmptyString
  | String c rest => if inCutset c cutset then TrimLeft rest cutset else s
  end.

(** [strings.TrimRight(s, cutset)]: the longest prefix of [s] whose last
    byte is outside [cutset]. *)
Fixpoint TrimRight (s cutset : string) : string :=
  match s with
  | EmptyString => EmptyString
  | String c rest =>
      match TrimRight rest cutset with
      | EmptyString => if inCutset c cutset then EmptyString else String c EmptyString
      | kept => String c kept
      end
  end.

(** [strings.Trim(s, cutset)] *)
Definition Trim (s cutset : string) : string :=
  TrimRight (TrimLeft s cutset) cutset.

(** the slice expression [s[n:]]; [None] is the run-time fault
    "slice bounds out of range" raised when [n > len(s)]. *)
Fixpoint sliceFrom (s : string) (n : nat) {struct n} : option string :=
  match n, s with
  | O, _ => Some s
  | S _, EmptyString => None
  | S n', String _ rest => sliceFrom rest n'
  end.

(** all bytes of [s] satisfy [p] *)
Fixpoint allb (p : ascii -> bool) (s : string) : bool :=
  match s with
  | EmptyString => true
  | String c rest => p c && allb p rest
  end.

End GoStrings.
Import GoStrings.

(* ================================================================== *)
(** ** Regular expressions with leftmost-first (backtracking) semantics

    [regexp] returns, among the matches that begin leftmost, the one a
    backtracking search finds first.  The matcher below is that search:
    it lists every way a pattern can match at a position, in the order of
    preference, and [FindStringSubmatch] takes the first. *)

Module Regexp.

Inductive regex : Type :=
| Lit (w : string)                       (* a literal string *)
| Class (p : ascii -> bool)              (* one byte of a class *)
| Plus (p : ascii -> bool)               (* [x+], greedy, [x] a class *)
| Cat (r1 r2 : regex)
| Alt (r1 r2 : regex)                    (* [r1|r2], [r1] preferred *)
| Quest (r : regex)                      (* [r?], greedy *)
| Cap (k : nat) (name : string) (r : regex)   (* group number [k] *)
| BeginText                              (* [^] *)
| EndText.                               (* [$] *)

(** the text of each group, [None] while the group has not taken part *)
Definition caps := list (option string).

Fixpoint setCap (k : nat) (v : string) (c : caps) : caps :=
  match k, c with
  | _, [] => []
  | O, _ :: c' => Some v :: c'
  | S k', o :: c' => o :: setCap k' v c'
  end.

(** a thread of the search: text consumed, text left, groups so far *)
Definition thread : Type := string * string * caps.

(** [stripPrefix w s]: the rest of [s] after the literal [w] *)
Fixpoint stripPrefix (w s : string) : option string :=
  match w, s with
  | EmptyString, _ => Some s
  | String a w', String b s' => if Ascii.eqb a b then stripPrefix w' s' else None
  | String _ _, EmptyString => None
  end.

(** the ways [x+] can match at the head of [s], longest first: every
    non-empty run of class bytes, as (run, rest). *)
Fixpoint plusRuns (p : ascii -> bool) (s : string) : list (string * string) :=
  match s with
  | EmptyString => []
  | String a s' =>
      if p a
      then map (fun xr => (String a (fst xr), snd xr)) (plusRuns p s')
           ++ [(String a EmptyString, s')]
      else []
  end.

(** [run r pos s c]: the threads of [r] started at byte offset [pos], where
    the text from there on is [s], in order of preference. *)
Fixpoint run (r : regex) (pos : nat) (s : string) (c : caps) : list thread :=
  match r with
  | Lit w =>
      match stripPrefix w s with
      | Some rest => [(w, rest, c)]
      | None => []
      end
  | Class p =>
      match s with
      | String a rest => if p a then [(String a EmptyString, rest, c)] else []
      | EmptyString => []
      end
  | Plus p => map (fun xr => (fst xr, snd xr, c)) (plusRuns p s)
  | Cat r1 r2 =>
      flat_map (fun t1 : thread =>
                  let '(x1, rest1, c1) := t1 in
                  map (fun t2 : thread =>
                         let '(x2, rest2, c2) := t2 in (x1 +++ x2, rest2, c2))
                      (run r2 (pos + String.length x1) rest1 c1))
               (run r1 pos s c)
  | Alt r1 r2 => run r1 pos s c ++ run r2 pos s c
  | Quest r1 => run r1 pos s c ++ [(EmptyString, s, c)]
  | Cap k _ r1 =>
      map (fun t : thread => let '(x, rest, c1) := t in (x, rest, setCap k x c1))
          (run r1 pos s c)
  | BeginText => if Nat.eqb pos 0 then [(EmptyString, s, c)] else []
  | EndText =>
      match s with
      | EmptyString => [(EmptyString, s, c)]
      | _ => []
      end
  end.

(** the groups of a pattern in the order of their opening parenthesis *)
Fixpoint groups (r : regex) : list (nat * string) :=
  match r with
  | Cat r1 r2 | Alt r1 r2 => groups r1 ++ groups r2
  | Quest r1 => groups r1
  | Cap k name r1 => (k, name) :: groups r1
  | _ => []
  end.

(** [Regexp.NumSubexp] *)
Definition NumSubexp (r : regex) : nat := List.length (groups r).

(** [Regexp.SubexpNames]: element 0 is the whole match and has no name *)
Definition SubexpNames (r : regex) : list string :=
  EmptyString :: map snd (groups r).

(** the search over start offsets: the leftmost offset with a thread wins,
    and at that offset the first thread. *)
Fixpoint search (r : regex) (pos : nat) (s : string) : option caps :=
  match run r pos s (repeat None (S (NumSubexp r))) with
  | (x, _, c) :: _ => Some (setCap 0 x c)
  | [] =>
      match s with
      | EmptyString => None
      | String _ s' => search r (S pos) s'
      end
  end.

Definition capText (o : option string) : string :=
  match o with Some x => x | None => EmptyString end.

(** [Regexp.FindStringSubmatch]: [None] is the nil slice of "no match";
    a group that took no part in the match yields the empty string. *)
Definition FindStringSubmatch (r : regex) (s : string) : option (list string) :=
  match search r 0 s with
  | Some c => Some (map capText c)
  | None => None
  end.

End Regexp.
Import Regexp.

(* ================================================================== *)
(** ** [strconv.Atoi] *)

Module Strconv.

(** [strconv.IntSize]: the width of [int] on the 64-bit targets *)
Definition intSize : Z := 64.

(** the largest [int] *)
Definition maxInt : Z := 2 ^ (intSize - 1) - 1.

Inductive NumError : Type := ErrSyntax | ErrRange.

Definition isDigit (a : ascii) : bool :=
  (48 <=? nat_of_ascii a)%nat && (nat_of_ascii a <=? 57)%nat.

(** the decimal value of a digit string read left to right, [None] at the
    first byte that is not a digit *)
Fixpoint digitsValue (acc : Z) (s : string) : option Z :=
  match s with
  | EmptyString => Some acc
  | String a rest =>
      if isDigit a
      then digitsValue (acc * 10 + (Z.of_nat (nat_of_ascii a) - 48)) rest
      else None
  end.

(** [strconv.Atoi(s)], that is [ParseInt(s, 10, 0)]: an optional sign and
    decimal digits; [ErrSyntax] on an empty or malformed number,
    [ErrRange] when the value does not fit [int]. *)
Definition Atoi (s : string) : Z + NumError :=
  let '(neg, body) :=
    match s with
    | String "+"%char rest => (false, rest)
    | String "-"%char rest => (true, rest)
    | _ => (false, s)
    end in
  match body with
  | EmptyString => inr ErrSyntax
  | _ =>
      match digitsValue 0 body with
      | None => inr ErrSyntax
      | Some v =>
          let n := if neg then (- v)%Z else v in
          if ((- 2 ^ (intSize - 1) <=? n) && (n <=? 2 ^ (intSize - 1) - 1))%Z
          then inl n
          else inr ErrRange
      end
  end.

End Strconv.
Import Strconv.

(* ================================================================== *)
(** ** The result record and the response parser ([conn.go]) *)

(** the status constants *)
Definition RES_OK : string := "OK".
Definition RES_FOUND : string := "FOUND".
Definition RES_ERROR : string := "ERROR".
Definition RES_PARSE_ERROR : string := "PARSE ERROR".

Record ScanResult : Type := mkScanResult {
  Raw : string;
  Description : string;
  Path : string;
  Hash : string;
  Size : Z;
  Status : string
}.

(** [&ScanResult{}] with [Raw] set *)
Definition newResult (line : string) : ScanResult :=
  mkScanResult line "" "" "" 0 "".

Definition withDescription (v : string) (r : ScanResult) : ScanResult :=
  mkScanResult (Raw r) v (Path r) (Hash r) (Size r) (Status r).
Definition withPath (v : string) (r : ScanResult) : ScanResult :=
  mkScanResult (Raw r) (Description r) v (Hash r) (Size r) (Status r).
Definition withHash (v : string) (r : ScanResult) : ScanResult :=
  mkScanResult (Raw r) (Description r) (Path r) v (Size r) (Status r).
Definition withSize (v : Z) (r : ScanResult) : ScanResult :=
  mkScanResult (Raw r) (Description r) (Path r) (Hash r) v (Status r).
Definition withStatus (v : string) (r : ScanResult) : ScanResult :=
  mkScanResult (Raw r) (Description r) (Path r) (Hash r) (Size r) v.

(** the class [[^:]] *)
Definition notColon (a : ascii) : bool := negb (Ascii.eqb a ":"%char).

(** [resultRegex]:
    [^(?P<path>[^:]+): ((?P<desc>[^:]+)(\((?P<virhash>([^:]+)):(?P<virsize>\d+)\))? )?(?P<status>FOUND|ERROR|OK)$] *)
Definition sigGroup : regex :=
  Cap 4 ""
    (Cat (Lit "(")
    (Cat (Cap 5 "virhash" (Cap 6 "" (Plus notColon)))
    (Cat (Lit ":")
    (Cat (Cap 7 "virsize" (Plus isDigit))
         (Lit ")"))))).

Definition descGroup : regex :=
  Cap 2 ""
    (Cat (Cap 3 "desc" (Plus notColon))
    (Cat (Quest sigGroup)
         (Lit " "))).

Definition statusGroup : regex :=
  Cap 8 "status" (Alt (Lit "FOUND") (Alt (Lit "ERROR") (Lit "OK"))).

Definition resultRegex : regex :=
  Cat BeginText
  (Cat (Cap 1 "path" (Plus notColon))
  (Cat (Lit ": ")
  (Cat (Quest descGroup)
  (Cat statusGroup
       EndText)))).

(** how one pass through a loop body ends *)
Inductive flow : Type :=
| Continue (res : ScanResult)            (* on to the next iteration *)
| Return (res : ScanResult).             (* [return res] *)

(** the [switch name] of [parseResult], [m] being [matches[i]] *)
Definition parseField (name m : string) (res : ScanResult) : flow :=
  if String.eqb name "path" then Continue (withPath m res)
  else if String.eqb name "desc" then Continue (withDescription m res)
  else if String.eqb name "virhash" then Continue (withHash m res)
  else if String.eqb name "virsize" then
    match Atoi m with
    | inl n => Continue (withSize n res)
    | inr _ => Continue res
    end
  else if String.eqb name "status" then
    if String.eqb m RES_OK || String.eqb m RES_FOUND || String.eqb m RES_ERROR
    then Continue (withStatus m res)
    else Return (withStatus RES_PARSE_ERROR
                   (withDescription ("Invalid status field: " +++ m) res))
  else Continue res.

(** the loop [for i, name := range resultRegex.SubexpNames()] *)
Fixpoint parseFields (names : list string) (i : nat) (matches : list string)
         (res : ScanResult) : ScanResult :=
  match names with
  | [] => res
  | name :: names' =>
      match parseField name (nth i matches "") res with
      | Return res' => res'
      | Continue res' => parseFields names' (S i) matches res'
      end
  end.

(** [parseResult] *)
Definition parseResult (line : string) : ScanResult :=
  let res := newResult line in
  match FindStringSubmatch resultRegex line with
  | None =>
      withStatus RES_PARSE_ERROR (withDescription "Regex had no matches" res)
  | Some matches =>
      parseFields (SubexpNames resultRegex) 0 matches res
  end.

(* ================================================================== *)
(** ** Errors, faults and the connection *)

(** the [error] values that flow through the package *)
Inductive error : Type :=
| EOF                                  (* [io.EOF] *)
| NetError (timeout : bool) (msg : string)   (* a [net.Error]: dial, read, write *)
| UrlError (msg : string)              (* the error of [url.Parse] *)
| SourceError (msg : string)           (* an error of the relayed [io.Reader] *)
| InvalidResponse (s : ScanResult).    (* [errors.New(fmt.Sprintf("Invalid response, got %s.", s))] *)

(** a call either returns or faults at run time *)
Inductive outcome (A : Type) : Type :=
| Ret (a : A)
| Panic (msg : string).
Arguments Ret {A} a.
Arguments Panic {A} msg.

(** the line feed, ['\n'] *)
Definition LF : ascii := "010"%char.

(** the bytes of a string, [[]byte(s)] *)
Definition bytesOf (s : string) : list Z :=
  map (fun a => Z.of_nat (nat_of_ascii a)) (list_ascii_of_string s).

(** [CLAMDConn]: the embedded [net.Conn] seen from the client.
    [written] logs the slices [Write] accepted, oldest first;
    [writeFaults] scripts the answers of the coming calls of [Write]
    ([Some e]: the call fails with [e]; [None] or an exhausted script: it
    succeeds); [incoming] is what the daemon sends before the stream ends. *)
Record CLAMDConn : Type := mkConn {
  written : list (list Z);
  writeFaults : list (option error);
  incoming : string
}.

(** [conn.Write(b)] *)
Definition Write (conn : CLAMDConn) (b : list Z) : CLAMDConn * option error :=
  match writeFaults conn with
  | Some e :: script => (mkConn (written conn) script (incoming conn), Some e)
  | None :: script => (mkConn (written conn ++ [b]) script (incoming conn), None)
  | [] => (mkConn (written conn ++ [b]) [] (incoming conn), None)
  end.

Definition CHUNK_SIZE : nat := 1024.

(** [sendCommand]: writes ["n" + command + "\n"] *)
Definition sendCommand (conn : CLAMDConn) (command : string)
  : CLAMDConn * option error :=
  let commandBytes := bytesOf ("n" +++ command +++ String LF "") in
  Write conn commandBytes.

(** [sendEOF] *)
Definition sendEOF (conn : CLAMDConn) : CLAMDConn * option error :=
  Write conn [0; 0; 0; 0]%Z.

(** the conversion [byte(x)] of an [int] *)
Definition byte (x : Z) : Z := (x mod 256)%Z.

(** the array [buf] that [sendChunk] fills from [lenData] *)
Definition chunkHeader (data : list Z) : list Z :=
  let lenData := Z.of_nat (List.length data) in
  [ byte (Z.shiftr lenData 24);
    byte (Z.shiftr lenData 16);
    byte (Z.shiftr lenData 8);
    byte (Z.shiftr lenData 0) ].

(** [sendChunk]: the result of the first [Write] is dropped, the error of
    the second is returned. *)
Definition sendChunk (conn : CLAMDConn) (data : list Z)
  : CLAMDConn * option error :=
  let b := chunkHeader data in
  let '(conn1, _) := Write conn b in
  Write conn1 data.

(** a 4-byte big-endian unsigned integer, as the daemon decodes it *)
Definition be32 (b : list Z) : Z :=
  match b with
  | [b0; b1; b2; b3] => (((b0 * 256 + b1) * 256 + b2) * 256 + b3)%Z
  | _ => (-1)%Z
  end.

(** the loop of the reader goroutine of [readResponse].  [cur] is the
    line [ReadString] is collecting; at the end of the stream (or at a read
    error) [ReadString] fails, the loop returns and the unfinished line is
    dropped; a complete line is trimmed, parsed and sent on the channel. *)
Fixpoint readLoop (cur : string) (input : string) : list ScanResult :=
  match input with
  | EmptyString => []
  | String a rest =>
      if Ascii.eqb a LF
      then let line := cur +++ String a "" in
           let line := TrimRight line (String " "%char (String "009"%char
                         (String "013"%char (String LF "")))) in
           parseResult line :: readLoop "" rest
      else readLoop (cur +++ String a "") rest
  end.

(** [readResponse]: the channel, as the records sent on it before it is
    closed; the error it returns is always nil. *)
Definition readResponse (c : CLAMDConn) : list ScanResult :=
  readLoop "" (incoming c).

(** [<-ch]: the next record, or the zero value [nil] once the channel is
    closed and drained *)
Definition recv (ch : list ScanResult) : option ScanResult := hd_error ch.

(** the network: what dialing a network and an address answers *)
Definition network : Type := string -> string -> CLAMDConn + error.

(** a dial that was attempted: network and address *)
Definition dial : Type := string * string.

(** [newCLAMDTcpConn]: both error branches return the error of the dial *)
Definition newCLAMDTcpConn (net : network) (address : string)
  : list dial * (CLAMDConn + error) :=
  ([("tcp", address)],
   match net "tcp" address with
   | inr err =>
       match err with
       | NetError true _ => inr err
       | _ => inr err
       end
   | inl conn => inl conn
   end).

(** [newCLAMDUnixConn] *)
Definition newCLAMDUnixConn (net : network) (address : string)
  : list dial * (CLAMDConn + error) :=
  ([("unix", address)],
   match net "unix" address with
   | inr err => inr err
   | inl conn => inl conn
   end).

(* ================================================================== *)
(** ** [net/url]: the part of [url.Parse] that decides the scheme

    [url.Parse] cuts the fragment off, rejects control bytes, splits the
    scheme off with [getScheme] and lower-cases it; these steps are
    written out.  What the library does afterwards with the rest of the
    address (query, authority, path, fragment) is outside this package and
    is taken from the [World]. *)

Module Url.

(** the fields of [url.URL] that [newConnection] reads *)
Record URL : Type := mkURL {
  Scheme : string;
  Host : string;
  Path : string
}.

Definition isLetter (a : ascii) : bool :=
  let n := nat_of_ascii a in
  ((97 <=? n) && (n <=? 122) || (65 <=? n) && (n <=? 90))%nat.

Definition isSchemeExtra (a : ascii) : bool :=
  isDigit a || Ascii.eqb a "+"%char || Ascii.eqb a "-"%char || Ascii.eqb a "."%char.

(** [stringContainsCTLByte]: a byte below [' '] or [0x7f] *)
Definition stringContainsCTLByte (s : string) : bool :=
  negb (allb (fun a => negb ((nat_of_ascii a <? 32)%nat || (nat_of_ascii a =? 127)%nat)) s).

(** the loop of [getScheme] at index [i], [s] being [rawURL[i:]] *)
Fixpoint getSchemeAt (rawURL : string) (i : nat) (s : string)
  : (string * string) + error :=
  match s with
  | EmptyString => inl ("", rawURL)
  | String c rest =>
      if isLetter c then getSchemeAt rawURL (S i) rest
      else if isSchemeExtra c then
        if Nat.eqb i 0 then inl ("", rawURL) else getSchemeAt rawURL (S i) rest
      else if Ascii.eqb c ":"%char then
        if Nat.eqb i 0 then inr (UrlError "missing protocol scheme")
        else inl (substring 0 i rawURL, rest)
      else inl ("", rawURL)
  end.

(** [getScheme(rawURL)]: scheme and rest *)
Definition getScheme (rawURL : string) : (string * string) + error :=
  getSchemeAt rawURL 0 rawURL.

Definition lowerByte (a : ascii) : ascii :=
  let n := nat_of_ascii a in
  if ((65 <=? n) && (n <=? 90))%nat then ascii_of_nat (n + 32) else a.

(** [strings.ToLower] on a scheme, whose bytes are ASCII *)
Fixpoint ToLower (s : string) : string :=
  match s with
  | EmptyString => EmptyString
  | String a rest => String (lowerByte a) (ToLower rest)
  end.

(** [strings.Cut(s, "#")]: the text before and after the first [#] *)
Fixpoint cutFragment (s : string) : string * string :=
  match s with
  | EmptyString => ("", "")
  | String a rest =>
      if Ascii.eqb a "#"%char then ("", rest)
      else let '(u, frag) := cutFragment rest in (String a u, frag)
  end.

End Url.

(** what lies outside the package: the rest of [net/url] and the network.
    [parseRest scheme rest] is the remainder of the library's [parse] after
    the scheme split, [setFragment] its handling of a non-empty fragment. *)
Record World : Type := mkWorld {
  parseRest : string -> string -> Url.URL + error;
  setFragment : Url.URL -> string -> Url.URL + error;
  net : network
}.

(** the library's [parse(rawURL, false)] *)
Definition url_parse (w : World) (u : string) : Url.URL + error :=
  if Url.stringContainsCTLByte u
  then inr (UrlError "net/url: invalid control character in URL")
  else if String.eqb u "*" then inl (Url.mkURL "" "" "*")
  else match Url.getScheme u with
       | inr err => inr err
       | inl (scheme, rest) => parseRest w (Url.ToLower scheme) rest
       end.

(** [url.Parse(rawURL)] *)
Definition url_Parse (w : World) (rawURL : string) : Url.URL + error :=
  let '(u, frag) := Url.cutFragment rawURL in
  match url_parse w u with
  | inr err => inr err
  | inl url => if String.eqb frag "" then inl url else setFragment w url frag
  end.

(* ================================================================== *)
(** ** The command layer *)

Record Clamd : Type := mkClamd { address : string }.

(** [NewClamd] *)
Definition NewClamd (address : string) : Clamd := mkClamd address.

(** [newConnection]: the dials attempted and the result *)
Definition newConnection (w : World) (c : Clamd)
  : list dial * (CLAMDConn + error) :=
  match url_Parse w (address c) with
  | inr err => ([], inr err)
  | inl u =>
      if String.eqb (Url.Scheme u) "tcp" then newCLAMDTcpConn (net w) (Url.Host u)
      else if String.eqb (Url.Scheme u) "unix" then newCLAMDUnixConn (net w) (Url.Path u)
      else newCLAMDUnixConn (net w) (address c)
  end.

(** [simpleCommand]: the channel of results or the error; the goroutine
    that closes the connection once the reader is done changes neither. *)
Definition simpleCommand (w : World) (c : Clamd) (command : string)
  : list ScanResult + error :=
  match snd (newConnection w c) with
  | inr err => inr err
  | inl conn =>
      match sendCommand conn command with
      | (_, Some err) => inr err
      | (conn1, None) => inl (readResponse conn1)
      end
  end.

(** the receive and the [switch s.Raw] shared by [Ping] and [Reload]:
    [s] is nil when the channel was closed without a record, and reading
    [s.Raw] then faults. *)
Definition expectLine (expected : string) (ch : list ScanResult)
  : outcome (option error) :=
  match recv ch with
  | None => Panic "invalid memory address or nil pointer dereference"
  | Some s =>
      if String.eqb (Raw s) expected then Ret None
      else Ret (Some (InvalidResponse s))
  end.

(** [Ping] *)
Definition Ping (w : World) (c : Clamd) : outcome (option error) :=
  match simpleCommand w c "PING" with
  | inr err => Ret (Some err)
  | inl ch => expectLine "PONG" ch
  end.

(** [Reload] *)
Definition Reload (w : World) (c : Clamd) : outcome (option error) :=
  match simpleCommand w c "RELOAD" with
  | inr err => Ret (Some err)
  | inl ch => expectLine "RELOADING" ch
  end.

Record Stats : Type := mkStats {
  Pools : string;
  State : string;
  Threads : string;
  Memstats : string;
  Queue : string
}.

(** the body of [for s := range ch] in [Stats], for one record *)
Definition statsStep (stats : Stats) (s : ScanResult) : outcome Stats :=
  if HasPrefix (Raw s) "POOLS" then
    match sliceFrom (Raw s) 6 with
    | None => Panic "slice bounds out of range"
    | Some tail =>
        Ret (mkStats (Trim tail " ") (State stats) (Threads stats)
                     (Memstats stats) (Queue stats))
    end
  else if HasPrefix (Raw s) "STATE" then
    Ret (mkStats (Pools stats) (Raw s) (Threads stats) (Memstats stats) (Queue stats))
  else if HasPrefix (Raw s) "THREADS" then
    Ret (mkStats (Pools stats) (State stats) (Raw s) (Memstats stats) (Queue stats))
  else if HasPrefix (Raw s) "QUEUE" then
    Ret (mkStats (Pools stats) (State stats) (Threads stats) (Memstats stats) (Raw s))
  else if HasPrefix (Raw s) "MEMSTATS" then
    Ret (mkStats (Pools stats) (State stats) (Threads stats) (Raw s) (Queue stats))
  else if HasPrefix (Raw s) "END" then Ret stats
  else Ret stats.

(** the loop [for s := range ch] *)
Fixpoint statsLoop (stats : Stats) (ch : list ScanResult) : outcome Stats :=
  match ch with
  | [] => Ret stats
  | s :: ch' =>
      match statsStep stats s with
      | Panic msg => Panic msg
      | Ret stats' => statsLoop stats' ch'
      end
  end.

(** the method [Stats] of [Clamd] (the record type has the name): the
    record and the error *)
Definition Clamd_Stats (w : World) (c : Clamd) : outcome (option Stats * option error) :=
  match simpleCommand w c "STATS" with
  | inr err => Ret (None, Some err)
  | inl ch =>
      match statsLoop (mkStats "" "" "" "" "") ch with
      | Panic msg => Panic msg
      | Ret stats => Ret (Some stats, None)
      end
  end.

(* ================================================================== *)
(** ** [ScanStream] and the sources it relays *)

(** an [io.Reader] with state [St]: [Read] on a buffer of [n] bytes answers
    the bytes it stored (their number is the [nr] of the code), the error,
    and the next state. *)
Definition Reader (St : Type) : Type :=
  St -> nat -> (list Z * option error) * St.

(** [bytes.Reader]: the state is the unread part of the slice *)
Definition bytesReader : Reader (list Z) :=
  fun unread n =>
    match unread with
    | [] => (([], Some EOF), [])
    | _ => ((firstn n unread, None), skipn n unread)
    end.

(** [iotest.HalfReader(r)]: reads half as many bytes as requested *)
Definition halfReader {St : Type} (r : Reader St) : Reader St :=
  fun st n => r st ((n + 1) / 2).

(** the [for] loop of [ScanStream].  [None]: the loop is still running
    when the fuel is spent.  The slice [buf[0:nr]] faults when the reader
    reports more bytes than the buffer holds; the error of [sendChunk] is
    dropped. *)
Fixpoint relay {St : Type} (r : Reader St) (fuel : nat) (st : St)
         (conn : CLAMDConn) : option (outcome CLAMDConn) :=
  match fuel with
  | O => None
  | S fuel' =>
      let '((data, err), st') := r st CHUNK_SIZE in
      let sent :=
        if (0 <? List.length data)%nat then
          if (List.length data <=? CHUNK_SIZE)%nat
          then Ret (fst (sendChunk conn data))
          else Panic "slice bounds out of range"
        else Ret conn in
      match sent with
      | Panic msg => Some (Panic msg)
      | Ret conn' =>
          match err with
          | Some _ => Some (Ret conn')
          | None => relay r fuel' st' conn'
          end
      end
  end.

(** [ScanStream]: the dials, the connection as it is left, and the channel
    or the error.  The error of [sendCommand] is dropped.  The goroutine
    that closes the connection on [abort] acts through the connection's
    answers ([writeFaults], [incoming]). *)
Definition ScanStream {St : Type} (w : World) (c : Clamd) (r : Reader St)
           (st : St) (fuel : nat)
  : option (outcome (option CLAMDConn * (list ScanResult + error))) :=
  match snd (newConnection w c) with
  | inr err => Some (Ret (None, inr err))
  | inl conn =>
      let conn1 := fst (sendCommand conn "INSTREAM") in
      match relay r fuel st conn1 with
      | None => None
      | Some (Panic msg) => Some (Panic msg)
      | Some (Ret conn2) =>
          match sendEOF conn2 with
          | (conn3, Some err) => Some (Ret (Some conn3, inr err))
          | (conn3, None) => Some (Ret (Some conn3, inl (readResponse conn3)))
          end
      end
  end.

(** the writes that carry a list of data chunks: prefix, then payload *)
Definition frames (chunks : list (list Z)) : list (list Z) :=
  flat_map (fun d => [chunkHeader d; d]) chunks.

(** the sizes of the writes a run of [ScanStream] left on the connection *)
Definition writeSizes
           (run : option (outcome (option CLAMDConn * (list ScanResult + error))))
  : option (list nat) :=
  match run with
  | Some (Ret (Some conn, _)) => Some (map (@List.length Z) (written conn))
  | _ => None
  end.

(** a world in which the library keeps the rest of an address as the path
    and every dial answers the connection [conn] *)
Definition worldWith (conn : CLAMDConn) : World :=
  mkWorld (fun scheme rest => inl (Url.mkURL scheme "" rest))
          (fun u _ => inl u)
          (fun _ _ => inl conn).

(** such a world with a connection whose writes succeed and on which the
    daemon sends [reply] *)
Definition healthyWorld (reply : string) : World :=
  worldWith (mkConn [] [] reply).

(** the claim C5 as a predicate of the world and the address: an address
    that does not parse as a URL with scheme tcp or unix is dialed, whole,
    as a Unix-domain socket path *)
Definition dialsWholeAddress (w : World) (addr : string) : Prop :=
  (forall u, url_Parse w addr = inl u ->
             Url.Scheme u <> "tcp" /\ Url.Scheme u <> "unix") ->
  newConnection w (NewClamd addr) = newCLAMDUnixConn (net w) addr.

(* ================================================================== *)
(** ** Specification-side definitions *)

(** Declarative semantics of patterns: [matches r pos x rest c c'] says
    that [r], at offset [pos] and in front of [rest], can consume [x] and
    turn the groups [c] into [c'].  It ignores preference. *)
Fixpoint matches (r : regex) (pos : nat) (x rest : string) (c c' : caps) : Prop :=
  match r with
  | Lit w => x = w /\ c' = c
  | Class p => exists a, x = String a "" /\ p a = true /\ c' = c
  | Plus p => x <> "" /\ allb p x = true /\ c' = c
  | Cat r1 r2 =>
      exists x1 x2 cm,
        x = x1 +++ x2 /\
        matches r1 pos x1 (x2 +++ rest) c cm /\
        matches r2 (pos + String.length x1) x2 rest cm c'
  | Alt r1 r2 => matches r1 pos x rest c c' \/ matches r2 pos x rest c c'
  | Quest r1 => matches r1 pos x rest c c' \/ (x = "" /\ c' = c)
  | Cap k _ r1 => exists cm, matches r1 pos x rest c cm /\ c' = setCap k x cm
  | BeginText => x = "" /\ pos = 0 /\ c' = c
  | EndText => x = "" /\ rest = "" /\ c' = c
  end.

(** a status token of the grammar *)
Definition isStatus (s : string) : Prop :=
  s = RES_FOUND \/ s = RES_ERROR \/ s = RES_OK.

(** a non-empty text without colon, what [[^:]+] consumes *)
Definition colonFree (s : string) : Prop :=
  s <> "" /\ allb notColon s = true.

(** a non-empty text of decimal digits, what [\d+] consumes *)
Definition digitString (s : string) : Prop :=
  s <> "" /\ allb isDigit s = true.

(** The three forms of an accepted line together with the slice
    [FindStringSubmatch] returns for it. *)
Inductive lineForm : string -> list string -> Prop :=
| form_plain path status :
    colonFree path -> isStatus status ->
    lineForm (path +++ ": " +++ status)
             [path +++ ": " +++ status; path; ""; ""; ""; ""; ""; ""; status]
| form_desc path desc status :
    colonFree path -> colonFree desc -> isStatus status ->
    lineForm (path +++ ": " +++ desc +++ " " +++ status)
             [path +++ ": " +++ desc +++ " " +++ status; path;
              desc +++ " "; desc; ""; ""; ""; ""; status]
| form_sig path desc hash digits status :
    colonFree path -> colonFree desc -> colonFree hash ->
    digitString digits -> isStatus status ->
    lineForm (path +++ ": " +++ desc +++ "(" +++ hash +++ ":" +++ digits +++ ") " +++ status)
             [path +++ ": " +++ desc +++ "(" +++ hash +++ ":" +++ digits +++ ") " +++ status;
              path;
              desc +++ "(" +++ hash +++ ":" +++ digits +++ ") ";
              desc;
              "(" +++ hash +++ ":" +++ digits +++ ")";
              hash; hash; digits; status].

(** the value [Size] takes for the digits of the size group: the number
    when [Atoi] accepts it, else the zero the field was created with *)
Definition sizeOf (digits : string) : Z :=
  match Atoi digits with
  | inl n => n
  | inr _ => 0%Z
  end.

(* ================================================================== *)
(** ** The remaining commands, and notions the later theorems speak of *)

(** [Version] *)
Definition Version (w : World) (c : Clamd) : list ScanResult + error :=
  simpleCommand w c "VERSION".

(** [Shutdown]: the channel is dropped, the error returned *)
Definition Shutdown (w : World) (c : Clamd) : option error :=
  match simpleCommand w c "SHUTDOWN" with
  | inr err => Some err
  | inl _ => None
  end.

(** [ScanFile] *)
Definition ScanFile (w : World) (c : Clamd) (path : string)
  : list ScanResult + error :=
  simpleCommand w c ("SCAN " +++ path).

(** [RawScanFile] *)
Definition RawScanFile (w : World) (c : Clamd) (path : string)
  : list ScanResult + error :=
  simpleCommand w c ("RAWSCAN " +++ path).

(** [MultiScanFile] *)
Definition MultiScanFile (w : World) (c : Clamd) (path : string)
  : list ScanResult + error :=
  simpleCommand w c ("MULTISCAN " +++ path).

(** [ContScanFile] *)
Definition ContScanFile (w : World) (c : Clamd) (path : string)
  : list ScanResult + error :=
  simpleCommand w c ("CONTSCAN " +++ path).

(** [AllMatchScanFile] *)
Definition AllMatchScanFile (w : World) (c : Clamd) (path : string)
  : list ScanResult + error :=
  simpleCommand w c ("ALLMATCHSCAN " +++ path).

(** the cutset [" \t\r\n"] of [readResponse] *)
Definition lineCutset : string :=
  String " "%char (String "009"%char (String "013"%char (String LF ""))).

(** the number of occurrences of a byte in a string *)
Fixpoint countByte (c : ascii) (s : string) : nat :=
  match s with
  | EmptyString => 0
  | String a rest => (if Ascii.eqb a c then 1 else 0) + countByte c rest
  end.

(** the last byte of a string *)
Fixpoint lastByte (s : string) : option ascii :=
  match s with
  | EmptyString => None
  | String a EmptyString => Some a
  | String _ rest => lastByte rest
  end.

(** a text without line feed *)
Definition lineFree (s : string) : Prop :=
  allb (fun a => negb (Ascii.eqb a LF)) s = true.

(** the reply made of the given lines, each ended by a line feed *)
Fixpoint joinLines (lines : list string) : string :=
  match lines with
  | [] => ""
  | l :: rest => l +++ String LF (joinLines rest)
  end.

(** the raw text of the last record of a channel that starts with
    [keyword], or [dflt] when there is none *)
Fixpoint lastSection (keyword : string) (ch : list ScanResult) (dflt : string)
  : string :=
  match ch with
  | [] => dflt
  | s :: ch' =>
      lastSection keyword ch' (if HasPrefix (Raw s) keyword then Raw s else dflt)
  end.

(** the pool text of the last record of a channel that starts with POOLS:
    what follows its first six bytes, spaces trimmed *)
Fixpoint lastPools (ch : list ScanResult) (dflt : string) : string :=
  match ch with
  | [] => dflt
  | s :: ch' =>
      lastPools ch'
        (if HasPrefix (Raw s) "POOLS"
         then match sliceFrom (Raw s) 6 with
              | Some tail => Trim tail " "
              | None => dflt
              end
         else dflt)
  end.

(** a byte [url.Parse] rejects as a control character *)
Definition isCTL (a : ascii) : bool :=
  ((nat_of_ascii a <? 32)%nat || (nat_of_ascii a =? 127)%nat).

(** the class of bytes other than the opening parenthesis *)
Definition notParen (a : ascii) : bool := negb (Ascii.eqb a "("%char).

(** a source that replaces every error of [r] by [f] of it *)
Definition mapError {St : Type} (f : error -> error) (r : Reader St) : Reader St :=
  fun st n =>
    let '((data, err), st') := r st n in ((data, option_map f err), st').

(** the sizes of the chunks into which a [bytes.Reader] over [len] bytes is
    relayed: full buffers, then the remainder if there is one *)
Definition chunkSizes (len : nat) : list nat :=
  repeat CHUNK_SIZE (len / CHUNK_SIZE)
  ++ (if Nat.eqb (len mod CHUNK_SIZE) 0 then [] else [len mod CHUNK_SIZE]).

(** a list in strictly decreasing order of a key *)
Fixpoint decreasing {A : Type} (key : A -> nat) (l : list A) : Prop :=
  match l with
  | [] => True
  | a :: l' => Forall (fun b => key b < key a) l' /\ decreasing key l'
  end.

(** the parts of [resultRegex] behind the anchor, the path, the separator
    and the optional description group, and the part of the description
    group behind the description *)
Definition tailStatus : regex := Cat statusGroup EndText.
Definition tailDesc : regex := Cat (Quest descGroup) tailStatus.
Definition tailSep : regex := Cat (Lit ": ") tailDesc.
Definition tailPath : regex := Cat (Cap 1 "path" (Plus notColon)) tailSep.
Definition descBody : regex := Cat (Quest sigGroup) (Lit " ").

(** the groups of the threads of a search *)
Definition capsOf (l : list thread) : list caps := map snd l.

(** what a source delivers to the loop of [ScanStream]: the data of each
    read, up to and including the first read that reports an error *)
Fixpoint sourceReads {St : Type} (r : Reader St) (fuel : nat) (st : St)
  : list (list Z) :=
  match fuel with
  | O => []
  | S fuel' =>
      let '((data, err), st') := r st CHUNK_SIZE in
      data :: match err with
              | Some _ => []
              | None => sourceReads r fuel' st'
              end
  end.

(** the connection after the slices [ws] were handed to [Write] one after
    the other, whatever each call answered *)
Definition writeAll (conn : CLAMDConn) (ws : list (list Z)) : CLAMDConn :=
  fold_left (fun c b => fst (Write c b)) ws conn.

(** a source that holds the bytes [remaining st] and answers a read on the
    buffer of [ScanStream] with as many of them as the buffer takes: a full
    buffer, or all of them when fewer are left.  It reports an error only
    with or after its last byte, and always once it holds none. *)
Definition fillsBuffer {St : Type} (r : Reader St) (remaining : St -> list Z)
  : Prop :=
  forall st,
    let '((data, err), st') := r st CHUNK_SIZE in
    data = firstn CHUNK_SIZE (remaining st) /\
    remaining st' = skipn CHUNK_SIZE (remaining st) /\
    (err <> None -> skipn CHUNK_SIZE (remaining st) = []) /\
    (remaining st = [] -> err <> None).

(** [iotest.DataErrReader] over a [bytes.Reader]: [io.EOF] comes with the
    last bytes, not with the read after them *)
Definition dataErrReader : Reader (list Z) :=
  fun unread n =>
    ((firstn n unread,
      match skipn n unread with [] => Some EOF | _ => None end),
     skipn n unread).

(* ================================================================== *)
(** ** Strings: basic facts *)

Lemma append_assoc (a b c : string) : (a +++ b) +++ c = a +++ b +++ c.
Proof. induction a as [|ch a IH]; simpl; [reflexivity | now rewrite IH]. Qed.

Lemma append_empty_r (a : string) : a +++ "" = a.
Proof. induction a as [|ch a IH]; simpl; [reflexivity | now rewrite IH]. Qed.

Lemma length_append (a b : string) :
  String.length (a +++ b) = String.length a + String.length b.
Proof. induction a as [|ch a IH]; simpl; [reflexivity | now rewrite IH]. Qed.

Lemma allb_append (p : ascii -> bool) (a b : string) :
  allb p (a +++ b) = allb p a && allb p b.
Proof.
  induction a as [|ch a IH]; simpl; [reflexivity|].
  rewrite IH. now rewrite andb_assoc.
Qed.

(* ================================================================== *)
(** ** The matcher is sound for the declarative semantics *)

Lemma stripPrefix_sound (w s rest : string) :
  stripPrefix w s = Some rest -> s = w +++ rest.
Proof.
  revert s. induction w as [|a w IH]; intros s H; simpl in *.
  - now inversion H.
  - destruct s as [|b s]; [discriminate|].
    destruct (Ascii.eqb a b) eqn:E; [|discriminate].
    apply Ascii.eqb_eq in E. subst b. f_equal. now apply IH.
Qed.

Lemma stripPrefix_complete (w rest : string) :
  stripPrefix w (w +++ rest) = Some rest.
Proof.
  induction w as [|a w IH]; simpl; [reflexivity|].
  now rewrite Ascii.eqb_refl.
Qed.

Lemma plusRuns_sound (p : ascii -> bool) (s x rest : string) :
  In (x, rest) (plusRuns p s) ->
  s = x +++ rest /\ x <> "" /\ allb p x = true.
Proof.
  revert x rest. induction s as [|a s IH]; intros x rest H; simpl in H.
  - contradiction.
  - destruct (p a) eqn:Pa; [|contradiction].
    apply in_app_or in H. destruct H as [H | [H | []]].
    + apply in_map_iff in H. destruct H as [[x0 r0] [E H]].
      simpl in E. inversion E; subst. clear E.
      destruct (IH _ _ H) as [-> [_ Hall]].
      simpl. rewrite Pa, Hall. repeat split. discriminate.
    + inversion H; subst. simpl. rewrite Pa. repeat split. discriminate.
Qed.

Theorem run_sound (r : regex) :
  forall pos s c x rest c',
    In (x, rest, c') (run r pos s c) ->
    s = x +++ rest /\ matches r pos x rest c c'.
Proof.
  induction r as [w | p | p | r1 IH1 r2 IH2 | r1 IH1 r2 IH2 | r1 IH1
                  | k name r1 IH1 | | ];
    intros pos s c x rest c' H; simpl in H |- *.
  - destruct (stripPrefix w s) eqn:E; [|contradiction].
    destruct H as [H | []]. inversion H; subst.
    split; [now apply stripPrefix_sound | auto].
  - destruct s as [|a s]; [contradiction|].
    destruct (p a) eqn:Pa; [|contradiction].
    destruct H as [H | []]. inversion H; subst.
    split; [reflexivity | exists a; auto].
  - apply in_map_iff in H. destruct H as [[x0 r0] [E H]].
    simpl in E. inversion E; subst.
    destruct (plusRuns_sound _ _ _ _ H) as [? [? ?]]. auto.
  - apply in_flat_map in H. destruct H as [[[x1 rest1] c1] [H1 H2]].
    apply in_map_iff in H2. destruct H2 as [[[x2 rest2] c2] [E H2]].
    inversion E; subst.
    destruct (IH1 _ _ _ _ _ _ H1) as [-> M1].
    destruct (IH2 _ _ _ _ _ _ H2) as [-> M2].
    split; [now rewrite append_assoc|].
    exists x1, x2, c1. auto.
  - apply in_app_or in H. destruct H as [H | H].
    + destruct (IH1 _ _ _ _ _ _ H); auto.
    + destruct (IH2 _ _ _ _ _ _ H); auto.
  - apply in_app_or in H. destruct H as [H | [H | []]].
    + destruct (IH1 _ _ _ _ _ _ H); auto.
    + inversion H; subst. auto.
  - apply in_map_iff in H. destruct H as [[[x0 rest0] c0] [E H]].
    inversion E; subst.
    destruct (IH1 _ _ _ _ _ _ H) as [? M]. split; [assumption|].
    exists c0. auto.
  - destruct (Nat.eqb pos 0) eqn:E; [|contradiction].
    apply Nat.eqb_eq in E. destruct H as [H | []]. inversion H; subst. auto.
  - destruct s; [|contradiction].
    destruct H as [H | []]. inversion H; subst. auto.
Qed.

(* ================================================================== *)
(** ** ... and complete: every derivation is one of the threads *)

Lemma plusRuns_complete (p : ascii -> bool) (x rest : string) :
  x <> "" -> allb p x = true -> In (x, rest) (plusRuns p (x +++ rest)).
Proof.
  induction x as [|a x IH]; intros Hne Hall; [contradiction|].
  simpl in Hall. apply andb_true_iff in Hall. destruct Hall as [Pa Hall].
  simpl. rewrite Pa. apply in_or_app.
  destruct x as [|b x].
  - right. left. reflexivity.
  - left. apply in_map_iff. exists (String b x, rest). split; [reflexivity|].
    apply IH; [discriminate | assumption].
Qed.

Theorem run_complete (r : regex) :
  forall pos x rest c c',
    matches r pos x rest c c' -> In (x, rest, c') (run r pos (x +++ rest) c).
Proof.
  induction r as [w | p | p | r1 IH1 r2 IH2 | r1 IH1 r2 IH2 | r1 IH1
                  | k name r1 IH1 | | ];
    intros pos x rest c c' M; simpl in M |- *.
  - destruct M as [-> ->]. rewrite stripPrefix_complete. now left.
  - destruct M as [a [-> [Pa ->]]]. simpl. rewrite Pa. now left.
  - destruct M as [Hne [Hall ->]].
    apply in_map_iff. exists (x, rest). split; [reflexivity|].
    now apply plusRuns_complete.
  - destruct M as [x1 [x2 [cm [-> [M1 M2]]]]].
    rewrite append_assoc. apply in_flat_map.
    exists (x1, x2 +++ rest, cm). split; [now apply IH1|].
    apply in_map_iff. exists (x2, rest, c'). split; [reflexivity | now apply IH2].
  - apply in_or_app. destruct M as [M | M]; [left; now apply IH1 | right; now apply IH2].
  - apply in_or_app. destruct M as [M | [-> ->]].
    + left. now apply IH1.
    + right. now left.
  - destruct M as [cm [M ->]].
    apply in_map_iff. exists (x, rest, cm). split; [reflexivity | now apply IH1].
  - destruct M as [-> [-> ->]]. now left.
  - destruct M as [-> [-> ->]]. now left.
Qed.

(* ================================================================== *)
(** ** The forms of an accepted line *)

(** take a derivation apart into its components *)
Ltac break_derivation :=
  repeat match goal with
         | H : exists _, _ |- _ => destruct H
         | H : _ /\ _ |- _ => destruct H
         | H : _ \/ _ |- _ => destruct H
         end.

(** bring concatenations into right-nested form *)
Ltac normalize_append :=
  repeat first [rewrite append_assoc | rewrite append_empty_r | progress simpl].

Lemma search_unfold (r : regex) (pos : nat) (s : string) :
  search r pos s =
  match run r pos s (repeat None (S (NumSubexp r))) with
  | (x, _, c) :: _ => Some (setCap 0 x c)
  | [] => match s with
          | EmptyString => None
          | String _ s' => search r (S pos) s'
          end
  end.
Proof. destruct s; reflexivity. Qed.

Lemma search_anchored (s : string) (pos : nat) :
  search resultRegex (S pos) s = None.
Proof.
  revert pos. induction s as [|a s IH]; intro pos;
    rewrite search_unfold; unfold resultRegex at 1; simpl; auto.
Qed.

Lemma search_first (s : string) (cs : caps) :
  search resultRegex 0 s = Some cs ->
  exists x rest c,
    In (x, rest, c) (run resultRegex 0 s (repeat None 9)) /\ cs = setCap 0 x c.
Proof.
  rewrite search_unfold.
  change (S (NumSubexp resultRegex)) with 9.
  destruct (run resultRegex 0 s (repeat None 9)) as [|[[x rest] c] l].
  - destruct s; [discriminate | now rewrite search_anchored].
  - intro H. inversion H. exists x, rest, c. split; [now left | reflexivity].
Qed.

Lemma resultRegex_forms (line x rest : string) (c : caps) :
  In (x, rest, c) (run resultRegex 0 line (repeat None 9)) ->
  lineForm line (map capText (setCap 0 x c)).
Proof.
  intro H. apply run_sound in H. destruct H as [-> M].
  unfold resultRegex, statusGroup, descGroup, sigGroup in M. simpl in M.
  break_derivation; subst; normalize_append.
  all: first [ eapply form_sig | eapply form_desc | eapply form_plain ];
    unfold colonFree, digitString, isStatus, RES_FOUND, RES_ERROR, RES_OK; auto.
Qed.

Theorem FindStringSubmatch_forms (line : string) (ms : list string) :
  FindStringSubmatch resultRegex line = Some ms -> lineForm line ms.
Proof.
  unfold FindStringSubmatch. intro H.
  destruct (search resultRegex 0 line) as [cs|] eqn:E; [|discriminate].
  inversion H; subst. clear H.
  apply search_first in E. destruct E as [x [rest [c [Hin ->]]]].
  now apply (resultRegex_forms line x rest c).
Qed.

(** every line of one of the three forms is matched *)
Lemma forms_matched (line : string) (ms : list string) :
  lineForm line ms -> FindStringSubmatch resultRegex line <> None.
Proof.
  intro F.
  assert (T : exists c, In (line, "", c) (run resultRegex 0 line (repeat None 9))).
  { destruct F as [path status [P1 P2] St | path desc status [P1 P2] [D1 D2] St
                   | path desc hash digits status [P1 P2] [D1 D2] [H1 H2] [N1 N2] St].
    - eexists.
      rewrite <- (append_empty_r (path +++ ": " +++ status)) at 2.
      apply run_complete. simpl.
      exists "", (path +++ ": " +++ status); eexists. split; [reflexivity|].
      split; [repeat split|].
      exists path, (": " +++ status); eexists. split; [reflexivity|].
      split; [eexists; repeat split; assumption|].
      exists ": ", status; eexists. split; [reflexivity|].
      split; [repeat split|].
      exists "", status; eexists. split; [reflexivity|].
      split; [right; repeat split|].
      exists status, ""; eexists. split; [now rewrite append_empty_r|].
      split; [|repeat split].
      eexists. split; [|reflexivity].
      destruct St as [-> | [-> | ->]]; simpl; auto.
    - eexists.
      rewrite <- (append_empty_r (path +++ ": " +++ desc +++ " " +++ status)) at 2.
      apply run_complete. simpl.
      exists "", (path +++ ": " +++ desc +++ " " +++ status); eexists. split; [reflexivity|].
      split; [repeat split|].
      exists path, (": " +++ desc +++ " " +++ status); eexists. split; [reflexivity|].
      split; [eexists; repeat split; assumption|].
      exists ": ", (desc +++ " " +++ status); eexists. split; [reflexivity|].
      split; [repeat split|].
      exists (desc +++ " "), status; eexists. split; [now rewrite append_assoc|].
      split.
      + left. eexists. split; [|reflexivity].
        exists desc, " "; eexists. split; [reflexivity|].
        split; [eexists; repeat split; assumption|].
        exists "", " "; eexists. split; [reflexivity|].
        split; [right; repeat split | repeat split].
      + exists status, ""; eexists. split; [now rewrite append_empty_r|].
        split; [|repeat split].
        eexists. split; [|reflexivity].
        destruct St as [-> | [-> | ->]]; simpl; auto.
    - eexists.
      rewrite <- (append_empty_r
                    (path +++ ": " +++ desc +++ "(" +++ hash +++ ":" +++ digits
                          +++ ") " +++ status)) at 2.
      apply run_complete. simpl.
      exists "", (path +++ ": " +++ desc +++ "(" +++ hash +++ ":" +++ digits
                       +++ ") " +++ status); eexists.
      split; [reflexivity|].
      split; [repeat split|].
      exists path, (": " +++ desc +++ "(" +++ hash +++ ":" +++ digits +++ ") " +++ status); eexists.
      split; [reflexivity|].
      split; [eexists; repeat split; assumption|].
      exists ": ", (desc +++ "(" +++ hash +++ ":" +++ digits +++ ") " +++ status); eexists.
      split; [reflexivity|].
      split; [repeat split|].
      exists (desc +++ "(" +++ hash +++ ":" +++ digits +++ ") "), status; eexists.
      split; [repeat (rewrite append_assoc; simpl); reflexivity|].
      split.
      + left. eexists. split; [|reflexivity].
        exists desc, ("(" +++ hash +++ ":" +++ digits +++ ") "); eexists.
        split; [reflexivity|].
        split; [eexists; repeat split; assumption|].
        exists ("(" +++ hash +++ ":" +++ digits +++ ")"), " "; eexists.
        split; [repeat (rewrite append_assoc; simpl); reflexivity|].
        split; [|repeat split].
        left. eexists. split; [|reflexivity].
        exists "(", (hash +++ ":" +++ digits +++ ")"); eexists. split; [reflexivity|].
        split; [repeat split|].
        exists hash, (":" +++ digits +++ ")"); eexists. split; [reflexivity|].
        split; [eexists; split; [eexists; repeat split; assumption | reflexivity]|].
        exists ":", (digits +++ ")"); eexists. split; [reflexivity|].
        split; [repeat split|].
        exists digits, ")"; eexists. split; [reflexivity|].
        split; [eexists; repeat split; assumption | repeat split].
      + exists status, ""; eexists. split; [now rewrite append_empty_r|].
        split; [|repeat split].
        eexists. split; [|reflexivity].
        destruct St as [-> | [-> | ->]]; simpl; auto. }
  destruct T as [c Hin].
  unfold FindStringSubmatch. rewrite search_unfold.
  change (S (NumSubexp resultRegex)) with 9.
  destruct (run resultRegex 0 line (repeat None 9)) as [|[[x rest] c0] l];
    [contradiction | discriminate].
Qed.

(** The lines the pattern matches are exactly the lines of the grammar
    [<path>: [<description> [(<signature>:<size>)] ]<status>]. *)
Theorem accepted_iff_form (line : string) :
  FindStringSubmatch resultRegex line <> None <-> exists ms, lineForm line ms.
Proof.
  split.
  - intro H. destruct (FindStringSubmatch resultRegex line) as [ms|] eqn:E;
      [|contradiction].
    exists ms. now apply FindStringSubmatch_forms.
  - intros [ms F]. now apply (forms_matched line ms).
Qed.

(* ================================================================== *)
(** ** [parseResult] on an accepted line *)

Lemma parseFields_groups (res : ScanResult)
      (whole path g2 desc g4 hash g6 digits status : string) :
  isStatus status ->
  parseFields (SubexpNames resultRegex) 0
              [whole; path; g2; desc; g4; hash; g6; digits; status] res
  = withStatus status
      (match Atoi digits with
       | inl n => withSize n (withHash hash (withDescription desc (withPath path res)))
       | inr _ => withHash hash (withDescription desc (withPath path res))
       end).
Proof.
  intro St.
  change (SubexpNames resultRegex)
    with [""; "path"; ""; "desc"; ""; "virhash"; ""; "virsize"; "status"].
  cbn -[Atoi].
  destruct (Atoi digits); destruct St as [-> | [-> | ->]]; reflexivity.
Qed.

Lemma parseFields_form (line : string) (ms : list string) :
  lineForm line ms ->
  parseFields (SubexpNames resultRegex) 0 ms (newResult line)
  = mkScanResult line (nth 3 ms "") (nth 1 ms "") (nth 5 ms "")
                 (sizeOf (nth 7 ms "")) (nth 8 ms "").
Proof.
  intro F.
  destruct F as [path status _ St | path desc status _ _ St
                 | path desc hash digits status _ _ _ _ St];
    rewrite (parseFields_groups _ _ _ _ _ _ _ _ _ _ St);
    cbn [nth]; unfold sizeOf.
  - reflexivity.
  - reflexivity.
  - destruct (Atoi digits); reflexivity.
Qed.

Theorem parseResult_accepted (line : string) (ms : list string) :
  FindStringSubmatch resultRegex line = Some ms ->
  parseResult line
  = mkScanResult line (nth 3 ms "") (nth 1 ms "") (nth 5 ms "")
                 (sizeOf (nth 7 ms "")) (nth 8 ms "").
Proof.
  intro H. unfold parseResult. rewrite H.
  apply parseFields_form. now apply FindStringSubmatch_forms.
Qed.

(* ================================================================== *)
(** ** [Atoi] on the text of the size group *)

Lemma digitsValue_digits (s : string) :
  allb isDigit s = true ->
  forall acc, (0 <= acc)%Z ->
  exists v, digitsValue acc s = Some v /\ (acc <= v)%Z.
Proof.
  induction s as [|a s IH]; intros Hall acc Hacc; simpl in *.
  - exists acc. split; [reflexivity | lia].
  - apply andb_true_iff in Hall. destruct Hall as [Ha Hs].
    rewrite Ha.
    assert (Hd : (0 <= Z.of_nat (nat_of_ascii a) - 48)%Z).
    { unfold isDigit in Ha. apply andb_true_iff in Ha. destruct Ha as [Ha _].
      apply Nat.leb_le in Ha. lia. }
    destruct (IH Hs (acc * 10 + (Z.of_nat (nat_of_ascii a) - 48))%Z) as [v [E L]];
      [lia|].
    exists v. split; [assumption | lia].
Qed.

Lemma Atoi_digits (s : string) (v : Z) :
  digitString s -> digitsValue 0 s = Some v ->
  Atoi s = if (v <=? maxInt)%Z then inl v else inr ErrRange.
Proof.
  intros [Hne Hall] Hv.
  destruct (digitsValue_digits s Hall 0%Z) as [v' [E L]]; [lia|].
  rewrite Hv in E. inversion E; subst v'. clear E.
  destruct s as [|a s]; [contradiction|].
  assert (Hsign : Atoi (String a s)
                  = match digitsValue 0 (String a s) with
                    | None => inr ErrSyntax
                    | Some v =>
                        if ((- 2 ^ (intSize - 1) <=? v) && (v <=? 2 ^ (intSize - 1) - 1))%Z
                        then inl v else inr ErrRange
                    end).
  { simpl in Hall. apply andb_true_iff in Hall. destruct Hall as [Ha _].
    destruct a as [[] [] [] [] [] [] [] []]; try discriminate Ha; reflexivity. }
  rewrite Hsign, Hv. unfold maxInt.
  replace (- 2 ^ (intSize - 1) <=? v)%Z with true; [reflexivity|].
  symmetry. apply Z.leb_le. unfold intSize. simpl. lia.
Qed.

Lemma sizeOf_digits (s : string) :
  digitString s ->
  exists v, digitsValue 0 s = Some v /\ (0 <= v)%Z /\
            sizeOf s = if (v <=? maxInt)%Z then v else 0%Z.
Proof.
  intros D. destruct (digitsValue_digits s (proj2 D) 0%Z) as [v [E L]]; [lia|].
  exists v. repeat split; try assumption.
  unfold sizeOf. rewrite (Atoi_digits s v D E).
  destruct (v <=? maxInt)%Z; reflexivity.
Qed.

(** [matches] has one entry per name, so [matches[i]] is in range in the
    loop of [parseResult] *)
Lemma FindStringSubmatch_length (line : string) (ms : list string) :
  FindStringSubmatch resultRegex line = Some ms ->
  List.length ms = List.length (SubexpNames resultRegex).
Proof.
  intro H. apply FindStringSubmatch_forms in H. destruct H; reflexivity.
Qed.

(* ================================================================== *)
(** ** The helpers on concrete inputs *)

Example trim_right_crlf :
  TrimRight ("PONG " +++ String "013"%char (String LF ""))
            (String " "%char (String "009"%char (String "013"%char (String LF ""))))
  = "PONG".
Proof. reflexivity. Qed.

Example trim_spaces : Trim "  1  " " " = "1".
Proof. reflexivity. Qed.

Example slice_in_range : sliceFrom "POOLS:" 6 = Some "".
Proof. reflexivity. Qed.

Example slice_out_of_range : sliceFrom "POOLS" 6 = None.
Proof. reflexivity. Qed.

Example atoi_68 : Atoi "68" = inl 68%Z.
Proof. reflexivity. Qed.

Example atoi_empty : Atoi "" = inr ErrSyntax.
Proof. reflexivity. Qed.

Example atoi_max : Atoi "9223372036854775807" = inl 9223372036854775807%Z.
Proof. vm_compute. reflexivity. Qed.

Example atoi_range : Atoi "9223372036854775808" = inr ErrRange.
Proof. vm_compute. reflexivity. Qed.

Example scheme_tcp :
  Url.getScheme "TCP://127.0.0.1:3310" = inl ("TCP", "//127.0.0.1:3310").
Proof. reflexivity. Qed.

Example scheme_of_path : Url.getScheme "/tmp/clamd.socket" = inl ("", "/tmp/clamd.socket").
Proof. reflexivity. Qed.

Example read_two_lines :
  readLoop "" ("/a: OK" +++ String LF ("/b: X FOUND" +++ String LF "PART"))
  = [parseResult "/a: OK"; parseResult "/b: X FOUND"].
Proof. vm_compute. reflexivity. Qed.

(* ================================================================== *)
(** ** The response parser: the claims *)

Example subexp_names :
  SubexpNames resultRegex
  = [""; "path"; ""; "desc"; ""; "virhash"; ""; "virsize"; "status"].
Proof. reflexivity. Qed.

Example group_numbers : map fst (groups resultRegex) = seq 1 8.
Proof. reflexivity. Qed.

Example parse_ok :
  parseResult "/tmp/file: OK" = mkScanResult "/tmp/file: OK" "" "/tmp/file" "" 0 "OK".
Proof. vm_compute. reflexivity. Qed.

Example parse_eicar_found :
  parseResult "/tmp/file: Eicar-Test-Signature(abcd1234:68) FOUND"
  = mkScanResult "/tmp/file: Eicar-Test-Signature(abcd1234:68) FOUND"
      "Eicar-Test-Signature" "/tmp/file" "abcd1234" 68 "FOUND".
Proof. vm_compute. reflexivity. Qed.

(** the preference of the search decides where the description ends: the
    longest description that still lets the line match *)
Example parse_greedy_desc :
  parseResult "p: d(x(h:1) FOUND"
  = mkScanResult "p: d(x(h:1) FOUND" "d(x" "p" "h" 1 "FOUND".
Proof. vm_compute. reflexivity. Qed.

(** C1, as stated, fails: a line the grammar accepts with status FOUND
    and no signature group yields an empty [Hash]. *)
Lemma found_without_signature :
  FindStringSubmatch resultRegex "/tmp/file: Eicar-Test-Signature FOUND" <> None /\
  Status (parseResult "/tmp/file: Eicar-Test-Signature FOUND") = RES_FOUND /\
  Hash (parseResult "/tmp/file: Eicar-Test-Signature FOUND") = "".
Proof. vm_compute. repeat split. discriminate. Qed.

(** C1 (amended): for every line accepted by the grammar whose record has
    status FOUND, [Hash] is non-empty exactly when the optional signature
    group [(hash:size)], group 4 of the pattern, took part in the match. *)
Theorem parseResult_found_hash (line : string) (ms : list string) :
  FindStringSubmatch resultRegex line = Some ms ->
  Status (parseResult line) = RES_FOUND ->
  (Hash (parseResult line) <> "" <-> nth 4 ms "" <> "").
Proof.
  intros H _. rewrite (parseResult_accepted line ms H). simpl.
  apply FindStringSubmatch_forms in H.
  destruct H as [path status _ _ | path desc status _ _ _
                 | path desc hash digits status _ _ [Hh _] _ _]; simpl.
  - tauto.
  - tauto.
  - split; intros _; [discriminate | assumption].
Qed.

Lemma parseResult_found_hash_witness :
  Hash (parseResult "/tmp/file: Eicar-Test-Signature(abcd1234:68) FOUND") <> "" <->
  nth 4 ["/tmp/file: Eicar-Test-Signature(abcd1234:68) FOUND"; "/tmp/file";
         "Eicar-Test-Signature(abcd1234:68) "; "Eicar-Test-Signature";
         "(abcd1234:68)"; "abcd1234"; "abcd1234"; "68"; "FOUND"] "" <> "".
Proof.
  apply (parseResult_found_hash
           "/tmp/file: Eicar-Test-Signature(abcd1234:68) FOUND").
  - vm_compute. reflexivity.
  - vm_compute. reflexivity.
Defined.

(** C2, as stated, fails: the grammar accepts the signature group in
    front of any status, and an OK line that carries it yields a non-empty
    [Hash] and a non-zero [Size]. *)
Lemma ok_with_signature :
  FindStringSubmatch resultRegex "/tmp/file: Eicar(abcd:68) OK"
  = Some ["/tmp/file: Eicar(abcd:68) OK"; "/tmp/file"; "Eicar(abcd:68) "; "Eicar";
          "(abcd:68)"; "abcd"; "abcd"; "68"; "OK"] /\
  parseResult "/tmp/file: Eicar(abcd:68) OK"
  = mkScanResult "/tmp/file: Eicar(abcd:68) OK" "Eicar" "/tmp/file" "abcd" 68 "OK".
Proof. vm_compute. split; reflexivity. Qed.

(** C2 (amended): for every line that matches the grammar with status
    token OK or ERROR, the record has that status; [Hash] is empty and
    [Size] zero when the signature group took no part in the match. *)
Theorem parseResult_ok_error (line : string) (ms : list string) :
  FindStringSubmatch resultRegex line = Some ms ->
  nth 8 ms "" = RES_OK \/ nth 8 ms "" = RES_ERROR ->
  Status (parseResult line) = nth 8 ms "" /\
  (nth 4 ms "" = "" ->
   Hash (parseResult line) = "" /\ Size (parseResult line) = 0%Z).
Proof.
  intros H _. rewrite (parseResult_accepted line ms H). simpl.
  split; [reflexivity|].
  apply FindStringSubmatch_forms in H.
  destruct H as [path status _ _ | path desc status _ _ _
                 | path desc hash digits status _ _ _ _ _]; simpl.
  - intros _. split; reflexivity.
  - intros _. split; reflexivity.
  - discriminate.
Qed.

Lemma parseResult_ok_error_witness :
  Status (parseResult "/tmp/file: Can't open file ERROR") = "ERROR" /\
  ("" = "" ->
   Hash (parseResult "/tmp/file: Can't open file ERROR") = "" /\
   Size (parseResult "/tmp/file: Can't open file ERROR") = 0%Z).
Proof.
  apply (parseResult_ok_error "/tmp/file: Can't open file ERROR"
           ["/tmp/file: Can't open file ERROR"; "/tmp/file"; "Can't open file ";
            "Can't open file"; ""; ""; ""; ""; "ERROR"]).
  - vm_compute. reflexivity.
  - right. reflexivity.
Defined.

(** C3: [parseResult] is a total function, and for every line the pattern
    does not match it returns the record with status PARSE ERROR, the
    fixed description, [Raw] set to the line and every other field empty
    or zero. *)
Theorem parseResult_no_match (line : string) :
  FindStringSubmatch resultRegex line = None ->
  parseResult line
  = mkScanResult line "Regex had no matches" "" "" 0 RES_PARSE_ERROR.
Proof.
  intro H. unfold parseResult. rewrite H. reflexivity.
Qed.

Lemma parseResult_no_match_witness :
  parseResult "PONG" = mkScanResult "PONG" "Regex had no matches" "" "" 0 RES_PARSE_ERROR.
Proof.
  apply (parseResult_no_match "PONG"). vm_compute. reflexivity.
Defined.

(** C4, as stated, fails twice: with the signature group present the
    status can be ERROR (or OK), and a size that does not fit [int] is
    left at zero. *)
Lemma signature_without_found :
  (nth 4 (match FindStringSubmatch resultRegex "/tmp/file: Eicar(abcd:68) ERROR" with
          | Some ms => ms
          | None => []
          end) "" = "(abcd:68)" /\
   Status (parseResult "/tmp/file: Eicar(abcd:68) ERROR") <> RES_FOUND) /\
  (digitsValue 0 "9223372036854775808" = Some 9223372036854775808%Z /\
   Status (parseResult "p: d(h:9223372036854775808) FOUND") = RES_FOUND /\
   Size (parseResult "p: d(h:9223372036854775808) FOUND") = 0%Z).
Proof. vm_compute. repeat split. discriminate. Qed.

(** C4 (amended): for every line matching the grammar with the signature
    group present, the record carries the path, the description and the
    hash of the line, a non-empty hash, the status token of the line (one
    of FOUND, ERROR, OK), and as size the non-negative integer written in
    the group when it fits [int], zero otherwise. *)
Theorem parseResult_signature (line : string) (ms : list string) :
  FindStringSubmatch resultRegex line = Some ms ->
  nth 4 ms "" <> "" ->
  Raw (parseResult line) = line /\
  Path (parseResult line) = nth 1 ms "" /\
  Description (parseResult line) = nth 3 ms "" /\
  Hash (parseResult line) = nth 5 ms "" /\
  Hash (parseResult line) <> "" /\
  Status (parseResult line) = nth 8 ms "" /\
  isStatus (Status (parseResult line)) /\
  exists v, digitsValue 0 (nth 7 ms "") = Some v /\ (0 <= v)%Z /\
            Size (parseResult line) = if (v <=? maxInt)%Z then v else 0%Z.
Proof.
  intros H G. rewrite (parseResult_accepted line ms H). simpl.
  apply FindStringSubmatch_forms in H.
  destruct H as [path status _ _ | path desc status _ _ _
                 | path desc hash digits status _ _ [Hh _] D St]; simpl in *.
  - contradiction.
  - contradiction.
  - repeat split; try assumption. now apply sizeOf_digits.
Qed.

Lemma parseResult_signature_witness :
  Raw (parseResult "/tmp/file: Eicar-Test-Signature(abcd1234:68) FOUND")
  = "/tmp/file: Eicar-Test-Signature(abcd1234:68) FOUND" /\
  Path (parseResult "/tmp/file: Eicar-Test-Signature(abcd1234:68) FOUND") = "/tmp/file" /\
  Description (parseResult "/tmp/file: Eicar-Test-Signature(abcd1234:68) FOUND")
  = "Eicar-Test-Signature" /\
  Hash (parseResult "/tmp/file: Eicar-Test-Signature(abcd1234:68) FOUND") = "abcd1234" /\
  Hash (parseResult "/tmp/file: Eicar-Test-Signature(abcd1234:68) FOUND") <> "" /\
  Status (parseResult "/tmp/file: Eicar-Test-Signature(abcd1234:68) FOUND") = "FOUND" /\
  isStatus (Status (parseResult "/tmp/file: Eicar-Test-Signature(abcd1234:68) FOUND")) /\
  exists v, digitsValue 0 "68" = Some v /\ (0 <= v)%Z /\
            Size (parseResult "/tmp/file: Eicar-Test-Signature(abcd1234:68) FOUND")
            = if (v <=? maxInt)%Z then v else 0%Z.
Proof.
  apply (parseResult_signature
           "/tmp/file: Eicar-Test-Signature(abcd1234:68) FOUND"
           ["/tmp/file: Eicar-Test-Signature(abcd1234:68) FOUND"; "/tmp/file";
            "Eicar-Test-Signature(abcd1234:68) "; "Eicar-Test-Signature";
            "(abcd1234:68)"; "abcd1234"; "abcd1234"; "68"; "FOUND"]).
  - vm_compute. reflexivity.
  - simpl. discriminate.
Defined.

(* ================================================================== *)
(** ** The transport resolver *)

Lemma getScheme_colon : Url.getScheme ":" = inr (UrlError "missing protocol scheme").
Proof. reflexivity. Qed.

(** whatever the world, the address [":"] stops in [url.Parse] *)
Lemma newConnection_colon (w : World) :
  newConnection w (NewClamd ":") = ([], inr (UrlError "missing protocol scheme")).
Proof. reflexivity. Qed.

(** C5, as stated, fails: on the address [":"] URL parsing fails, and
    [newConnection] returns that error without any dial, although a dial
    of the address would have succeeded. *)
Lemma parse_failure_is_not_dialed : ~ dialsWholeAddress (healthyWorld "") ":".
Proof.
  unfold dialsWholeAddress. intro H.
  assert (P : forall u, url_Parse (healthyWorld "") ":" = inl u ->
                        Url.Scheme u <> "tcp" /\ Url.Scheme u <> "unix").
  { intros u E. vm_compute in E. discriminate E. }
  specialize (H P). rewrite newConnection_colon in H.
  vm_compute in H. discriminate H.
Qed.

(** C5 (amended): for every address that does not parse as a URL with
    scheme tcp or unix, [newConnection] dials the whole string as a
    Unix-domain socket path when URL parsing succeeds, and returns the
    parse error without dialing when it fails. *)
Theorem newConnection_default (w : World) (c : Clamd) :
  (forall u, url_Parse w (address c) = inl u ->
             Url.Scheme u <> "tcp" /\ Url.Scheme u <> "unix") ->
  match url_Parse w (address c) with
  | inl _ => newConnection w c = newCLAMDUnixConn (net w) (address c) /\
             fst (newConnection w c) = [("unix", address c)]
  | inr err => newConnection w c = ([], inr err)
  end.
Proof.
  intro H. unfold newConnection.
  destruct (url_Parse w (address c)) as [u | err]; [|reflexivity].
  destruct (H u eq_refl) as [Ht Hu].
  apply String.eqb_neq in Ht. apply String.eqb_neq in Hu.
  rewrite Ht, Hu. split; reflexivity.
Qed.

Lemma newConnection_default_witness :
  newConnection (healthyWorld "") (NewClamd "/tmp/clamd.socket")
  = newCLAMDUnixConn (net (healthyWorld "")) "/tmp/clamd.socket" /\
  fst (newConnection (healthyWorld "") (NewClamd "/tmp/clamd.socket"))
  = [("unix", "/tmp/clamd.socket")].
Proof.
  apply (newConnection_default (healthyWorld "") (NewClamd "/tmp/clamd.socket")).
  intros u E. vm_compute in E. inversion E. simpl. split; discriminate.
Defined.

(* ================================================================== *)
(** ** Framing *)

Lemma Write_healthy (log : list (list Z)) (inc : string) (b : list Z) :
  Write (mkConn log [] inc) b = (mkConn (log ++ [b]) [] inc, None).
Proof. reflexivity. Qed.

Lemma sendChunk_healthy (log : list (list Z)) (inc : string) (data : list Z) :
  sendChunk (mkConn log [] inc) data
  = (mkConn (log ++ [chunkHeader data; data]) [] inc, None).
Proof.
  unfold sendChunk. rewrite Write_healthy, Write_healthy.
  now rewrite <- app_assoc.
Qed.

Lemma be32_header (data : list Z) :
  (Z.of_nat (List.length data) <= 2 ^ 32 - 1)%Z ->
  be32 (chunkHeader data) = Z.of_nat (List.length data).
Proof.
  intro H. unfold chunkHeader, be32, byte.
  set (L := Z.of_nat (List.length data)) in *.
  assert (0 <= L)%Z by (unfold L; lia).
  rewrite !Z.shiftr_div_pow2 by lia.
  change (2 ^ 24)%Z with 16777216%Z. change (2 ^ 16)%Z with 65536%Z.
  change (2 ^ 8)%Z with 256%Z. change (2 ^ 0)%Z with 1%Z.
  change (2 ^ 32 - 1)%Z with 4294967295%Z in H.
  Z.div_mod_to_equations. lia.
Qed.

(** C7: for every payload whose length [L] is at most [2^32 - 1], the
    prefix [sendChunk] writes in front of it is four bytes that decode,
    big-endian, to [L]; [sendEOF] writes exactly four zero bytes and
    nothing else. *)
Theorem chunk_framing_roundtrip
        (log : list (list Z)) (inc : string) (data : list Z) :
  (Z.of_nat (List.length data) <= 2 ^ 32 - 1)%Z ->
  written (fst (sendChunk (mkConn log [] inc) data))
  = log ++ [chunkHeader data; data] /\
  List.length (chunkHeader data) = 4 /\
  Forall (fun b => 0 <= b < 256)%Z (chunkHeader data) /\
  be32 (chunkHeader data) = Z.of_nat (List.length data) /\
  written (fst (sendEOF (mkConn log [] inc))) = log ++ [[0; 0; 0; 0]%Z].
Proof.
  intro H. rewrite sendChunk_healthy.
  unfold sendEOF. rewrite Write_healthy. cbn [fst written].
  split; [reflexivity|]. split; [reflexivity|].
  split; [|split; [now apply be32_header | reflexivity]].
  unfold chunkHeader, byte.
  repeat apply Forall_cons; try apply Forall_nil; apply Z.mod_pos_bound; lia.
Qed.

Lemma chunk_framing_roundtrip_witness :
  written (fst (sendChunk (mkConn [] [] "") [88; 53; 79]%Z))
  = [] ++ [chunkHeader [88; 53; 79]%Z; [88; 53; 79]%Z] /\
  List.length (chunkHeader [88; 53; 79]%Z) = 4 /\
  Forall (fun b => 0 <= b < 256)%Z (chunkHeader [88; 53; 79]%Z) /\
  be32 (chunkHeader [88; 53; 79]%Z) = Z.of_nat (List.length [88; 53; 79]%Z) /\
  written (fst (sendEOF (mkConn [] [] ""))) = [] ++ [[0; 0; 0; 0]%Z].
Proof.
  apply (chunk_framing_roundtrip [] "" [88; 53; 79]%Z).
  vm_compute. discriminate.
Defined.

Example header_of_1024 : chunkHeader (repeat 0%Z 1024) = [0; 0; 4; 0]%Z.
Proof. vm_compute. reflexivity. Qed.

(** C6 does not hold of the code, which drops write errors.  When the
    write of the 4-byte prefix fails with [e], [sendChunk] returns only what
    the write of the payload answers: no error if it succeeds, its own
    error [e'] if it fails.  When the write of the command fails, or
    the write of a chunk, [ScanStream] goes on and returns the channel with
    no error; on a connection whose every write fails it still relays the
    source and returns only the error of the terminator. *)
Theorem write_errors_dropped (e e' : error) (log : list (list Z)) (inc : string)
        (data : list Z) :
  sendChunk (mkConn log [Some e] inc) data
  = (mkConn (log ++ [data]) [] inc, None) /\
  sendChunk (mkConn log [Some e; Some e'] inc) data
  = (mkConn log [] inc, Some e') /\
  ScanStream (worldWith (mkConn [] [Some e] inc)) (NewClamd "*") bytesReader [] 1
  = Some (Ret (Some (mkConn [[0; 0; 0; 0]%Z] [] inc), inl (readLoop "" inc))) /\
  ScanStream (worldWith (mkConn [] [None; None; Some e] inc)) (NewClamd "*")
             bytesReader [88%Z] 2
  = Some (Ret (Some (mkConn [bytesOf ("nINSTREAM" +++ String LF "");
                             [0; 0; 0; 1]%Z; [0; 0; 0; 0]%Z] [] inc),
               inl (readLoop "" inc))) /\
  ScanStream (worldWith (mkConn [] [Some e; Some e; Some e; Some e'] inc))
             (NewClamd "*") bytesReader [88%Z] 2
  = Some (Ret (Some (mkConn [] [] inc), inr e')).
Proof. repeat split. Qed.

(** the sibling path: [simpleCommand] returns the error of the command write *)
Lemma simpleCommand_write_error (e : error) (inc command : string) :
  simpleCommand (worldWith (mkConn [] [Some e] inc)) (NewClamd "*") command = inr e.
Proof. reflexivity. Qed.

(* ================================================================== *)
(** ** The liveness and reload checks *)

Lemma readLoop_no_line (input : string) :
  allb (fun a => negb (Ascii.eqb a LF)) input = true ->
  forall cur, readLoop cur input = [].
Proof.
  induction input as [|a input IH]; intros H cur; simpl in *.
  - reflexivity.
  - apply andb_true_iff in H. destruct H as [Ha Hs].
    apply negb_true_iff in Ha. rewrite Ha. now apply IH.
Qed.

(** C9: when the connection is established, the command is written and the
    daemon ends the stream without a complete line, the channel is closed
    empty, [Ping] and [Reload] receive nil and fault on [s.Raw] instead of
    returning an error. *)
Theorem ping_reload_fault_on_empty_reply (w : World) (c : Clamd) (conn : CLAMDConn) :
  snd (newConnection w c) = inl conn ->
  hd None (writeFaults conn) = None ->
  allb (fun a => negb (Ascii.eqb a LF)) (incoming conn) = true ->
  Ping w c = Panic "invalid memory address or nil pointer dereference" /\
  Reload w c = Panic "invalid memory address or nil pointer dereference".
Proof.
  intros Hc Hw Hin.
  assert (S : forall command, simpleCommand w c command = inl []).
  { intro command. unfold simpleCommand. rewrite Hc.
    unfold sendCommand, Write.
    destruct (writeFaults conn) as [|[e|] script]; simpl in Hw; try discriminate;
      unfold readResponse; simpl; now rewrite readLoop_no_line. }
  unfold Ping, Reload. rewrite !S. split; reflexivity.
Qed.

Lemma ping_reload_fault_on_empty_reply_witness :
  Ping (healthyWorld "") (NewClamd "/tmp/clamd.socket")
  = Panic "invalid memory address or nil pointer dereference" /\
  Reload (healthyWorld "") (NewClamd "/tmp/clamd.socket")
  = Panic "invalid memory address or nil pointer dereference".
Proof.
  apply (ping_reload_fault_on_empty_reply
           (healthyWorld "") (NewClamd "/tmp/clamd.socket") (mkConn [] [] ""));
    reflexivity.
Defined.

Example ping_pong :
  Ping (healthyWorld ("PONG" +++ String LF "")) (NewClamd "/tmp/clamd.socket") = Ret None.
Proof. vm_compute. reflexivity. Qed.

(** a reply that is not ended by a line feed is dropped by the reader *)
Example ping_unterminated_pong :
  Ping (healthyWorld "PONG") (NewClamd "/tmp/clamd.socket")
  = Panic "invalid memory address or nil pointer dereference".
Proof. vm_compute. reflexivity. Qed.

(* ================================================================== *)
(** ** Statistics *)

(** the body of the loop on one record, keyword by keyword *)
Lemma statsStep_keywords (stats : Stats) (d p h : string) (sz : Z) (st : string) :
  statsStep stats (mkScanResult "POOLS" d p h sz st)
  = Panic "slice bounds out of range" /\
  (forall (a : ascii) (tail : string),
      statsStep stats (mkScanResult ("POOLS" +++ String a tail) d p h sz st)
      = Ret (mkStats (Trim tail " ") (State stats) (Threads stats)
                     (Memstats stats) (Queue stats))) /\
  (forall rest,
      statsStep stats (mkScanResult ("STATE" +++ rest) d p h sz st)
      = Ret (mkStats (Pools stats) ("STATE" +++ rest) (Threads stats)
                     (Memstats stats) (Queue stats))) /\
  (forall rest,
      statsStep stats (mkScanResult ("THREADS" +++ rest) d p h sz st)
      = Ret (mkStats (Pools stats) (State stats) ("THREADS" +++ rest)
                     (Memstats stats) (Queue stats))) /\
  (forall rest,
      statsStep stats (mkScanResult ("QUEUE" +++ rest) d p h sz st)
      = Ret (mkStats (Pools stats) (State stats) (Threads stats)
                     (Memstats stats) ("QUEUE" +++ rest))) /\
  (forall rest,
      statsStep stats (mkScanResult ("MEMSTATS" +++ rest) d p h sz st)
      = Ret (mkStats (Pools stats) (State stats) (Threads stats)
                     ("MEMSTATS" +++ rest) (Queue stats))).
Proof. repeat split; intros; try reflexivity; destruct rest; reflexivity. Qed.

Example stats_pools_fault :
  Clamd_Stats (healthyWorld ("POOLS" +++ String LF "")) (NewClamd "/tmp/clamd.socket")
  = Panic "slice bounds out of range".
Proof. vm_compute. reflexivity. Qed.

Example stats_sections :
  Clamd_Stats (healthyWorld ("POOLS: 1" +++ String LF ("STATE: VALID PRIMARY"
                             +++ String LF ("END" +++ String LF ""))))
              (NewClamd "/tmp/clamd.socket")
  = Ret (Some (mkStats "1" "STATE: VALID PRIMARY" "" "" ""), None).
Proof. vm_compute. reflexivity. Qed.

(* ================================================================== *)
(** ** Stream upload *)

Lemma relay_step_chunk {St : Type} (r : Reader St) (fuel : nat) (st st' : St)
      (conn : CLAMDConn) (data : list Z) :
  r st CHUNK_SIZE = ((data, None), st') ->
  0 < List.length data <= CHUNK_SIZE ->
  relay r (S fuel) st conn = relay r fuel st' (fst (sendChunk conn data)).
Proof.
  intros E [Hlo Hhi]. cbn [relay]. rewrite E.
  apply Nat.ltb_lt in Hlo. apply Nat.leb_le in Hhi.
  now rewrite Hlo, Hhi.
Qed.

Lemma relay_step_end {St : Type} (r : Reader St) (fuel : nat) (st st' : St)
      (conn : CLAMDConn) (e : error) :
  r st CHUNK_SIZE = (([], Some e), st') ->
  relay r (S fuel) st conn = Some (Ret conn).
Proof. intros E. cbn [relay]. now rewrite E. Qed.

Lemma bytesReader_unread (unread : list Z) (n : nat) :
  unread <> [] ->
  bytesReader unread n = ((firstn n unread, None), skipn n unread).
Proof. destruct unread; [contradiction | reflexivity]. Qed.

Lemma frames_app (xs ys : list (list Z)) : frames (xs ++ ys) = frames xs ++ frames ys.
Proof. unfold frames. apply flat_map_app. Qed.

Lemma header_not_terminator (d : list Z) :
  0 < List.length d <= CHUNK_SIZE -> chunkHeader d <> [0; 0; 0; 0]%Z.
Proof.
  intros [Hlo Hhi] E.
  assert (B : be32 (chunkHeader d) = Z.of_nat (List.length d)).
  { apply be32_header. unfold CHUNK_SIZE in Hhi.
    apply Z.le_trans with (Z.of_nat 1024); [lia|].
    vm_compute. discriminate. }
  rewrite E in B. simpl in B. lia.
Qed.

(** C8, as stated, fails: the frames follow the reads of the source, not
    the chunk size.  A 2500-byte source that answers each read with at most
    half the buffer is relayed as five data frames. *)
Lemma short_reads_give_five_frames :
  writeSizes (ScanStream (healthyWorld "") (NewClamd "/tmp/clamd.socket")
                         (halfReader bytesReader) (repeat 0%Z 2500) 6)
  = Some [10; 4; 512; 4; 512; 4; 512; 4; 512; 4; 452; 4].
Proof. vm_compute. reflexivity. Qed.

Lemma relay_step_last {St : Type} (r : Reader St) (fuel : nat) (st st' : St)
      (conn : CLAMDConn) (data : list Z) (e : error) :
  r st CHUNK_SIZE = ((data, Some e), st') ->
  0 < List.length data <= CHUNK_SIZE ->
  relay r (S fuel) st conn = Some (Ret (fst (sendChunk conn data))).
Proof.
  intros E [Hlo Hhi]. cbn [relay]. rewrite E.
  apply Nat.ltb_lt in Hlo. apply Nat.leb_le in Hhi.
  now rewrite Hlo, Hhi.
Qed.

(** [bytes.Reader] and [iotest.DataErrReader] over it fill the buffer *)
Lemma bytesReader_fillsBuffer : fillsBuffer bytesReader (fun unread => unread).
Proof.
  intros [|b unread]; unfold bytesReader.
  - rewrite firstn_nil, skipn_nil. repeat split; intros; discriminate.
  - repeat split; intro H; [contradiction | discriminate H].
Qed.

Lemma dataErrReader_fillsBuffer : fillsBuffer dataErrReader (fun unread => unread).
Proof.
  intro unread. unfold dataErrReader. repeat split.
  - destruct (skipn CHUNK_SIZE unread); [reflexivity | intro H; contradiction].
  - intros ->. rewrite skipn_nil. discriminate.
Qed.

(** a source that fills the buffer delivers 2500 bytes in three reads *)
Lemma relay_fillsBuffer_2500 {St : Type} (r : Reader St) (remaining : St -> list Z)
      (st : St) (log : list (list Z)) (inc : string) (k : nat) :
  fillsBuffer r remaining ->
  List.length (remaining st) = 2500 ->
  relay r (4 + k) st (mkConn log [] inc)
  = Some (Ret (mkConn (log ++ frames [firstn 1024 (remaining st);
                                      firstn 1024 (skipn 1024 (remaining st));
                                      skipn 2048 (remaining st)]) [] inc)).
Proof.
  intros F L. remember (remaining st) as data eqn:D.
  assert (L2 : List.length (skipn 1024 data) = 1476)
    by (rewrite length_skipn, L; reflexivity).
  assert (N2 : skipn 1024 data <> [])
    by (intro E; rewrite E in L2; discriminate L2).
  assert (S3 : skipn 1024 (skipn 1024 data) = skipn 2048 data)
    by (rewrite skipn_skipn; reflexivity).
  assert (L3 : List.length (skipn 2048 data) = 452)
    by (rewrite length_skipn, L; reflexivity).
  assert (N3 : skipn 2048 data <> [])
    by (intro E; rewrite E in L3; discriminate L3).
  assert (F3 : firstn 1024 (skipn 2048 data) = skipn 2048 data)
    by (apply firstn_all2; rewrite L3; apply Nat.leb_le; reflexivity).
  assert (E3 : skipn 1024 (skipn 2048 data) = [])
    by (apply skipn_all2; rewrite L3; apply Nat.leb_le; reflexivity).
  change (4 + k) with (S (S (S (S k)))).
  (* the first read: a full buffer, 1476 bytes left *)
  pose proof (F st) as H1.
  destruct (r st CHUNK_SIZE) as [[d1 e1] st1] eqn:E1.
  destruct H1 as (D1 & R1 & X1 & _).
  rewrite <- D in D1, R1, X1. change CHUNK_SIZE with 1024 in D1, R1, X1.
  destruct e1 as [e|]; [exfalso; apply N2, X1; discriminate|]. clear X1.
  rewrite (relay_step_chunk r _ st st1 _ d1 E1).
  2:{ rewrite D1, length_firstn, L. change CHUNK_SIZE with 1024. split.
      - apply Nat.min_glb_lt_iff. split; apply Nat.lt_0_succ.
      - apply Nat.le_min_l. }
  rewrite sendChunk_healthy. cbn [fst].
  (* the second read: a full buffer, 452 bytes left *)
  pose proof (F st1) as H2.
  destruct (r st1 CHUNK_SIZE) as [[d2 e2] st2] eqn:E2.
  destruct H2 as (D2 & R2 & X2 & _).
  rewrite R1 in D2, R2, X2. change CHUNK_SIZE with 1024 in D2, R2, X2.
  rewrite S3 in R2, X2.
  destruct e2 as [e|]; [exfalso; apply N3, X2; discriminate|]. clear X2.
  rewrite (relay_step_chunk r _ st1 st2 _ d2 E2).
  2:{ rewrite D2, length_firstn, L2. change CHUNK_SIZE with 1024. split.
      - apply Nat.min_glb_lt_iff. split; apply Nat.lt_0_succ.
      - apply Nat.le_min_l. }
  rewrite sendChunk_healthy. cbn [fst].
  (* the third read: the 452 bytes, with the error or before it *)
  pose proof (F st2) as H3.
  destruct (r st2 CHUNK_SIZE) as [[d3 e3] st3] eqn:E3'.
  destruct H3 as (D3 & R3 & _ & _).
  rewrite R2 in D3, R3. change CHUNK_SIZE with 1024 in D3, R3.
  rewrite F3 in D3. rewrite E3 in R3.
  assert (B3 : 0 < List.length d3 <= CHUNK_SIZE).
  { rewrite D3, L3. change CHUNK_SIZE with 1024. split.
    - apply Nat.lt_0_succ.
    - apply Nat.leb_le; reflexivity. }
  destruct e3 as [e|].
  - rewrite (relay_step_last r _ st2 st3 _ d3 e E3' B3).
    rewrite sendChunk_healthy. cbn [fst]. subst d1 d2 d3.
    unfold frames. cbn [flat_map app]. rewrite <- !app_assoc. reflexivity.
  - rewrite (relay_step_chunk r _ st2 st3 _ d3 E3' B3).
    rewrite sendChunk_healthy. cbn [fst].
    pose proof (F st3) as H4.
    destruct (r st3 CHUNK_SIZE) as [[d4 e4] st4] eqn:E4.
    destruct H4 as (D4 & _ & _ & X4).
    rewrite R3, firstn_nil in D4. subst d4.
    destruct e4 as [e|]; [|exfalso; now apply (X4 R3)].
    rewrite (relay_step_end r k st3 st4 _ e E4). subst d1 d2 d3.
    unfold frames. cbn [flat_map app]. rewrite <- !app_assoc. reflexivity.
Qed.

Lemma writeAll_app (conn : CLAMDConn) (xs ys : list (list Z)) :
  writeAll conn (xs ++ ys) = writeAll (writeAll conn xs) ys.
Proof. apply fold_left_app. Qed.

Lemma writeAll_healthy (inc : string) (ws : list (list Z)) :
  forall log, writeAll (mkConn log [] inc) ws = mkConn (log ++ ws) [] inc.
Proof.
  induction ws as [|b ws IH]; intro log.
  - cbn [writeAll fold_left]. now rewrite app_nil_r.
  - change (writeAll (mkConn log [] inc) (b :: ws))
      with (writeAll (fst (Write (mkConn log [] inc) b)) ws).
    rewrite Write_healthy. cbn [fst]. rewrite IH, <- app_assoc. reflexivity.
Qed.

Lemma sendChunk_writeAll (conn : CLAMDConn) (data : list Z) :
  fst (sendChunk conn data) = writeAll conn (frames [data]).
Proof.
  unfold sendChunk, writeAll, frames. cbn [flat_map app fold_left].
  destruct (Write conn (chunkHeader data)) as [conn1 o]. reflexivity.
Qed.

(** on any connection, a loop that ends has handed to [Write] the frames of
    the non-empty reads and nothing else, and each of them fits the buffer *)
Lemma relay_attempts {St : Type} (r : Reader St) (fuel : nat) :
  forall (st : St) (conn conn' : CLAMDConn),
    relay r fuel st conn = Some (Ret conn') ->
    conn' = writeAll conn (frames (filter (fun d => Nat.ltb 0 (List.length d))
                                          (sourceReads r fuel st))) /\
    Forall (fun d => 0 < List.length d <= CHUNK_SIZE)
           (filter (fun d => Nat.ltb 0 (List.length d)) (sourceReads r fuel st)).
Proof.
  induction fuel as [|fuel IH]; intros st conn conn' H; [discriminate H|].
  cbn [relay sourceReads] in *.
  destruct (r st CHUNK_SIZE) as [[data err] st']. cbn [filter].
  destruct (Nat.ltb 0 (List.length data)) eqn:Hlo.
  - destruct (Nat.leb (List.length data) CHUNK_SIZE) eqn:Hhi; [|discriminate H].
    apply Nat.ltb_lt in Hlo. apply Nat.leb_le in Hhi.
    rewrite sendChunk_writeAll in H.
    destruct err as [e|].
    + inversion H; subst. cbn [filter]. split; [reflexivity|].
      constructor; [split; assumption | constructor].
    + destruct (IH _ _ _ H) as [E G]. split.
      * rewrite E.
        change (data :: filter (fun d => Nat.ltb 0 (List.length d))
                               (sourceReads r fuel st'))
          with ([data] ++ filter (fun d => Nat.ltb 0 (List.length d))
                                 (sourceReads r fuel st')).
        rewrite frames_app, writeAll_app. reflexivity.
      * constructor; [split; assumption | exact G].
  - destruct err as [e|].
    + inversion H; subst. cbn [filter]. split; [reflexivity | constructor].
    + now apply IH.
Qed.

(** C8 (amended).  (1) A source of 2500 bytes that answers every read with
    a full buffer of 1024 bytes, or with all its bytes when fewer are
    left, and reports an error only with or after its last byte (a
    [bytes.Reader], for one) is relayed, on a connection whose writes
    succeed, as the command, exactly three data frames of 1024, 1024 and
    452 bytes in that order, and the terminator of four zero bytes.
    (2) For any source and any connection, when [ScanStream] returns, the
    slices it handed to [Write] are the command, then the prefix and the
    payload of every non-empty read of the source, in the order of the
    reads, then the terminator: one data frame per non-empty read, each
    with a payload of 1 to 1024 bytes and a prefix that is not the
    terminator, so no data frame has length zero.  (3) On a connection
    whose writes succeed the slices handed to [Write] are the slices
    written. *)
Theorem ScanStream_frames :
  (forall (St : Type) (r : Reader St) (remaining : St -> list Z) (st : St)
          (w : World) (c : Clamd) (log : list (list Z)) (inc : string) (k : nat),
      fillsBuffer r remaining ->
      List.length (remaining st) = 2500 ->
      snd (newConnection w c) = inl (mkConn log [] inc) ->
      exists c1 c2 c3,
        ScanStream w c r st (4 + k)
        = Some (Ret (Some (mkConn (log ++ [bytesOf ("nINSTREAM" +++ String LF "")]
                                       ++ frames [c1; c2; c3]
                                       ++ [[0; 0; 0; 0]%Z]) [] inc),
                     inl (readLoop "" inc))) /\
        map (@List.length Z) [c1; c2; c3] = [1024; 1024; 452] /\
        c1 ++ c2 ++ c3 = remaining st) /\
  (forall (St : Type) (r : Reader St) (st : St) (fuel : nat)
          (w : World) (c : Clamd) (conn conn' : CLAMDConn)
          (res : list ScanResult + error),
      snd (newConnection w c) = inl conn ->
      ScanStream w c r st fuel = Some (Ret (Some conn', res)) ->
      conn' = writeAll conn
                ([bytesOf ("nINSTREAM" +++ String LF "")]
                 ++ frames (filter (fun d => Nat.ltb 0 (List.length d))
                                   (sourceReads r fuel st))
                 ++ [[0; 0; 0; 0]%Z]) /\
      Forall (fun d => 0 < List.length d <= CHUNK_SIZE /\
                       chunkHeader d <> [0; 0; 0; 0]%Z)
             (filter (fun d => Nat.ltb 0 (List.length d)) (sourceReads r fuel st))) /\
  (forall (log : list (list Z)) (inc : string) (ws : list (list Z)),
      written (writeAll (mkConn log [] inc) ws) = log ++ ws).
Proof.
  split; [|split].
  - intros St r remaining st w c log inc k F L Hc.
    exists (firstn 1024 (remaining st)),
           (firstn 1024 (skipn 1024 (remaining st))),
           (skipn 2048 (remaining st)).
    split; [|split].
    + unfold ScanStream. rewrite Hc.
      unfold sendCommand. rewrite Write_healthy. cbn [fst].
      rewrite (relay_fillsBuffer_2500 r remaining st _ inc k F L).
      unfold sendEOF. rewrite Write_healthy.
      unfold readResponse. cbn [incoming].
      rewrite <- !app_assoc. reflexivity.
    + cbn [map]. rewrite !length_firstn, !length_skipn, L. reflexivity.
    + rewrite <- (firstn_skipn 1024 (remaining st)) at 4.
      f_equal.
      rewrite <- (firstn_skipn 1024 (skipn 1024 (remaining st))) at 2.
      f_equal. rewrite skipn_skipn. reflexivity.
  - intros St r st fuel w c conn conn' res Hc H.
    unfold ScanStream in H. rewrite Hc in H. cbv zeta in H.
    destruct (relay r fuel st _) as [[conn2 | msg] |] eqn:R; try discriminate H.
    apply relay_attempts in R. destruct R as [E F].
    split.
    + rewrite !writeAll_app.
      change (writeAll conn [bytesOf ("nINSTREAM" +++ String LF "")])
        with (fst (sendCommand conn "INSTREAM")).
      rewrite <- E. unfold sendEOF in H.
      change (writeAll conn2 [[0; 0; 0; 0]%Z]) with (fst (Write conn2 [0; 0; 0; 0]%Z)).
      destruct (Write conn2 [0; 0; 0; 0]%Z) as [conn3 [err|]];
        inversion H; reflexivity.
    + eapply Forall_impl; [|exact F].
      intros d Hd. split; [exact Hd | now apply header_not_terminator].
  - intros log inc ws. now rewrite writeAll_healthy.
Qed.

Lemma ScanStream_frames_witness :
  exists c1 c2 c3,
    ScanStream (healthyWorld "") (NewClamd "/tmp/clamd.socket") bytesReader
               (repeat 0%Z 2500) (4 + 0)
    = Some (Ret (Some (mkConn ([] ++ [bytesOf ("nINSTREAM" +++ String LF "")]
                                  ++ frames [c1; c2; c3]
                                  ++ [[0; 0; 0; 0]%Z]) [] ""),
                 inl (readLoop "" ""))) /\
    map (@List.length Z) [c1; c2; c3] = [1024; 1024; 452] /\
    c1 ++ c2 ++ c3 = repeat 0%Z 2500.
Proof.
  apply (proj1 ScanStream_frames (list Z) bytesReader (fun unread => unread)
               (repeat 0%Z 2500) (healthyWorld "") (NewClamd "/tmp/clamd.socket")
               [] "" 0).
  - exact bytesReader_fillsBuffer.
  - vm_compute. reflexivity.
  - reflexivity.
Defined.

Example scan_2500_bytes_eof_with_data :
  writeSizes (ScanStream (healthyWorld "") (NewClamd "/tmp/clamd.socket")
                         dataErrReader (repeat 0%Z 2500) 3)
  = Some [10; 4; 1024; 4; 1024; 4; 452; 4].
Proof. vm_compute. reflexivity. Qed.

Example scan_2500_bytes :
  writeSizes (ScanStream (healthyWorld "") (NewClamd "/tmp/clamd.socket")
                         bytesReader (repeat 0%Z 2500) 4)
  = Some [10; 4; 1024; 4; 1024; 4; 452; 4].
Proof. vm_compute. reflexivity. Qed.

(* ================================================================== *)
(** ** Strings: counting, last byte, cancellation *)

Lemma countByte_append (c : ascii) (a b : string) :
  countByte c (a +++ b) = countByte c a + countByte c b.
Proof.
  induction a as [|ch a IH]; simpl; [reflexivity|]. rewrite IH. lia.
Qed.

Lemma colonFree_count (s : string) :
  allb notColon s = true -> countByte ":" s = 0.
Proof.
  induction s as [|a s IH]; simpl; intro H; [reflexivity|].
  apply andb_true_iff in H. destruct H as [Ha Hs].
  unfold notColon in Ha. apply negb_true_iff in Ha. rewrite Ha.
  now rewrite IH.
Qed.

Lemma digits_colonFree (s : string) :
  allb isDigit s = true -> allb notColon s = true.
Proof.
  induction s as [|a s IH]; simpl; intro H; [reflexivity|].
  apply andb_true_iff in H. destruct H as [Ha Hs].
  rewrite (IH Hs), andb_true_r.
  destruct a as [[] [] [] [] [] [] [] []]; try discriminate Ha; reflexivity.
Qed.

Lemma status_colonFree (s : string) : isStatus s -> allb notColon s = true.
Proof. intros [-> | [-> | ->]]; reflexivity. Qed.

Lemma lastByte_append (u s : string) :
  s <> "" -> lastByte (u +++ s) = lastByte s.
Proof.
  intro Hs. induction u as [|a u IH]; simpl; [reflexivity|].
  rewrite <- IH. destruct (u +++ s) eqn:E; [|reflexivity].
  destruct u; simpl in E; [contradiction | discriminate].
Qed.

Lemma append_cancel_r (u u' s : string) : u +++ s = u' +++ s -> u = u'.
Proof.
  revert u'. induction u as [|a u IH]; intros [|b u'] H; simpl in H.
  - reflexivity.
  - apply (f_equal String.length) in H. simpl in H.
    rewrite length_append in H. lia.
  - apply (f_equal String.length) in H. simpl in H.
    rewrite length_append in H. lia.
  - inversion H; subst. f_equal. now apply IH.
Qed.

(** two ways to cut a text at a byte [c], both prefixes free of [c] *)
Lemma split_first (p : ascii -> bool) (c : ascii) (a a' r r' : string) :
  p c = false -> allb p a = true -> allb p a' = true ->
  a +++ String c r = a' +++ String c r' -> a = a' /\ r = r'.
Proof.
  intros Pc. revert a'. induction a as [|x a IH]; intros [|y a'] Ha Ha' E;
    simpl in *.
  - inversion E. auto.
  - inversion E; subst. rewrite Pc in Ha'. discriminate.
  - inversion E; subst. rewrite Pc in Ha. discriminate.
  - inversion E; subst.
    apply andb_true_iff in Ha. apply andb_true_iff in Ha'.
    destruct (IH a' (proj2 Ha) (proj2 Ha') H1) as [-> ->]. auto.
Qed.

(** ... and when only the first cut is known to be at the only [c] *)
Lemma split_only (p : ascii -> bool) (c : ascii) (a a' r r' : string) :
  p c = false -> allb p a = true -> allb p r = true ->
  a +++ String c r = a' +++ String c r' -> a = a' /\ r = r'.
Proof.
  intros Pc. revert a'. induction a as [|x a IH]; intros [|y a'] Ha Hr E;
    simpl in *.
  - inversion E. auto.
  - inversion E; subst. rewrite allb_append in Hr. simpl in Hr.
    rewrite Pc in Hr. rewrite andb_false_r in Hr. discriminate.
  - inversion E; subst. rewrite Pc in Ha. discriminate.
  - inversion E; subst.
    apply andb_true_iff in Ha.
    destruct (IH a' (proj2 Ha) Hr H1) as [-> ->]. auto.
Qed.

(** a line ends in one status token only *)
Lemma status_suffix (u u' s s' : string) :
  isStatus s -> isStatus s' -> u +++ s = u' +++ s' -> u = u' /\ s = s'.
Proof.
  intros [-> | [-> | ->]] [-> | [-> | ->]] E;
    try (split; [now apply append_cancel_r in E | reflexivity]);
    exfalso; apply (f_equal lastByte) in E;
    rewrite !lastByte_append in E by discriminate; discriminate E.
Qed.

(* ================================================================== *)
(** ** The response parser: further properties *)

(** the record of a line the pattern does not match *)
Lemma parseResult_unmatched (line : string) :
  FindStringSubmatch resultRegex line = None ->
  parseResult line
  = mkScanResult line "Regex had no matches" "" "" 0 RES_PARSE_ERROR.
Proof. intro H. unfold parseResult. now rewrite H. Qed.

Lemma parseResult_Raw (line : string) : Raw (parseResult line) = line.
Proof.
  destruct (FindStringSubmatch resultRegex line) as [ms|] eqn:E.
  - now rewrite (parseResult_accepted line ms E).
  - now rewrite (parseResult_unmatched line E).
Qed.

(** X1: [resultRegex] matches a line exactly when the line has one of the
    three forms [path: status], [path: desc status] and
    [path: desc(hash:digits) status], with [path], [desc] and [hash]
    non-empty and colon-free, [digits] a non-empty run of decimal digits
    and [status] one of FOUND, ERROR and OK. *)
Theorem resultRegex_grammar (line : string) :
  FindStringSubmatch resultRegex line <> None <->
  (exists path status,
      colonFree path /\ isStatus status /\ line = path +++ ": " +++ status) \/
  (exists path desc status,
      colonFree path /\ colonFree desc /\ isStatus status /\
      line = path +++ ": " +++ desc +++ " " +++ status) \/
  (exists path desc hash digits status,
      colonFree path /\ colonFree desc /\ colonFree hash /\
      digitString digits /\ isStatus status /\
      line = path +++ ": " +++ desc +++ "(" +++ hash +++ ":" +++ digits
                  +++ ") " +++ status).
Proof.
  rewrite accepted_iff_form. split.
  - intros [ms F]. destruct F.
    + left. eauto.
    + right. left. eauto 8.
    + right. right. eauto 12.
  - intros [(path & status & P & S & ->)
           | [(path & desc & status & P & D & S & ->)
             | (path & desc & hash & digits & status & P & D & H & N & S & ->)]];
      eexists; [now apply form_plain | now apply form_desc | now apply form_sig].
Qed.

(** X2: the status of a record is PARSE ERROR exactly when the pattern
    does not match the line, and is otherwise one of FOUND, ERROR and OK;
    the branch "Invalid status field" is never taken. *)
Theorem parseResult_status (line : string) :
  (Status (parseResult line) = RES_PARSE_ERROR <->
   FindStringSubmatch resultRegex line = None) /\
  (FindStringSubmatch resultRegex line <> None ->
   isStatus (Status (parseResult line))) /\
  (Status (parseResult line) = RES_PARSE_ERROR ->
   Description (parseResult line) = "Regex had no matches").
Proof.
  destruct (FindStringSubmatch resultRegex line) as [ms|] eqn:E.
  - rewrite (parseResult_accepted line ms E). simpl.
    apply FindStringSubmatch_forms in E.
    assert (St : isStatus (nth 8 ms "")) by (destruct E; assumption).
    assert (NP : nth 8 ms "" <> RES_PARSE_ERROR)
      by (destruct St as [-> | [-> | ->]]; discriminate).
    split; [split; intro H; [exfalso; now apply NP | discriminate H]|].
    split; [intros _; exact St | intro H; exfalso; now apply NP].
  - rewrite (parseResult_unmatched line E). simpl.
    split; [split; reflexivity|].
    split; [intro H; now contradiction H | reflexivity].
Qed.

(** X3: whatever the line, the record keeps it unchanged in [Raw], its
    size lies between zero and the largest [int], a non-zero size comes
    with a non-empty hash, and a non-empty hash with a non-empty
    description. *)
Theorem parseResult_invariants (line : string) :
  Raw (parseResult line) = line /\
  (0 <= Size (parseResult line) <= maxInt)%Z /\
  (Size (parseResult line) <> 0%Z -> Hash (parseResult line) <> "") /\
  (Hash (parseResult line) <> "" -> Description (parseResult line) <> "").
Proof.
  assert (M : (0 <= maxInt)%Z) by (vm_compute; discriminate).
  destruct (FindStringSubmatch resultRegex line) as [ms|] eqn:E.
  - rewrite (parseResult_accepted line ms E). simpl.
    apply FindStringSubmatch_forms in E.
    destruct E as [path status _ _ | path desc status _ _ _
                   | path desc hash digits status _ [D _] [H _] N _]; simpl.
    + change (sizeOf "") with 0%Z. repeat split; try lia; intro X; congruence.
    + change (sizeOf "") with 0%Z. repeat split; try lia; intro X; congruence.
    + destruct (sizeOf_digits digits N) as [v [_ [V ->]]].
      repeat split; try (intros _; assumption);
        destruct (Z.leb_spec v maxInt); lia.
  - rewrite (parseResult_unmatched line E). simpl.
    repeat split; try lia; intro X; congruence.
Qed.

(** X4: for a line the pattern matches, [Path] is non-empty and free of
    colons, the line begins with [Path] followed by colon and space, and
    [Description] and [Hash] are free of colons. *)
Theorem parseResult_path (line : string) :
  FindStringSubmatch resultRegex line <> None ->
  colonFree (Path (parseResult line)) /\
  HasPrefix line (Path (parseResult line) +++ ": ") = true /\
  allb notColon (Description (parseResult line)) = true /\
  allb notColon (Hash (parseResult line)) = true.
Proof.
  intro H. destruct (FindStringSubmatch resultRegex line) as [ms|] eqn:E;
    [clear H | contradiction].
  rewrite (parseResult_accepted line ms E). simpl.
  apply FindStringSubmatch_forms in E.
  assert (P : forall a b, HasPrefix (a +++ b) a = true).
  { intros a b. unfold HasPrefix. induction a as [|x a IH]; simpl.
    - destruct b; reflexivity.
    - destruct (ascii_dec x x); [assumption | contradiction]. }
  destruct E as [path status Hp _ | path desc status Hp [_ D] _
                 | path desc hash digits status Hp [_ D] [_ Hh] _ _]; simpl;
    repeat split; try apply Hp; try assumption;
    match goal with
    | |- HasPrefix (?p +++ String ":" (String " " ?r)) _ = true =>
        change (p +++ String ":" (String " " r)) with (p +++ ": " +++ r);
        rewrite <- append_assoc; apply P
    end.
Qed.

Lemma parseResult_path_witness :
  colonFree (Path (parseResult "/tmp/file: OK")) /\
  HasPrefix "/tmp/file: OK" (Path (parseResult "/tmp/file: OK") +++ ": ") = true /\
  allb notColon (Description (parseResult "/tmp/file: OK")) = true /\
  allb notColon (Hash (parseResult "/tmp/file: OK")) = true.
Proof.
  apply (parseResult_path "/tmp/file: OK"). vm_compute. discriminate.
Defined.

Lemma lineForm_colons (line : string) (ms : list string) :
  lineForm line ms ->
  countByte ":" line = (if String.eqb (nth 4 ms "") "" then 1 else 2).
Proof.
  intro F.
  destruct F as [path status [_ P] St | path desc status [_ P] [_ D] St
                 | path desc hash digits status [_ P] [_ D] [_ H] [_ N] St];
    cbn [nth String.eqb];
    repeat (rewrite countByte_append; cbn [countByte Ascii.eqb Bool.eqb]);
    rewrite ?(colonFree_count _ P), ?(colonFree_count _ D), ?(colonFree_count _ H),
            ?(colonFree_count _ (digits_colonFree _ N)),
            ?(colonFree_count _ (status_colonFree _ St));
    reflexivity.
Qed.

(** X5: a line the pattern matches contains one colon, or two when the
    signature group is present; so a line without colon (such as PONG) or
    with three or more colons always yields the PARSE ERROR record. *)
Theorem parseResult_colons (line : string) :
  countByte ":" line = 0 \/ 3 <= countByte ":" line ->
  parseResult line
  = mkScanResult line "Regex had no matches" "" "" 0 RES_PARSE_ERROR.
Proof.
  intro H. apply parseResult_unmatched.
  destruct (FindStringSubmatch resultRegex line) as [ms|] eqn:E; [|reflexivity].
  apply FindStringSubmatch_forms, lineForm_colons in E.
  destruct (String.eqb (nth 4 ms "") ""); lia.
Qed.

Lemma parseResult_colons_witness :
  parseResult "/f: lstat() failed: No such file: x ERROR"
  = mkScanResult "/f: lstat() failed: No such file: x ERROR"
                 "Regex had no matches" "" "" 0 RES_PARSE_ERROR.
Proof.
  apply (parseResult_colons "/f: lstat() failed: No such file: x ERROR").
  right. vm_compute. repeat constructor.
Defined.

(** X6: in a line the pattern matches, the first colon is followed by a
    space; a line whose first colon is followed by anything else (a path
    such as [C:\\file], a time of day) yields the PARSE ERROR record. *)
Theorem parseResult_first_colon (a r : string) :
  allb notColon a = true ->
  HasPrefix r " " = false ->
  parseResult (a +++ ":" +++ r)
  = mkScanResult (a +++ ":" +++ r) "Regex had no matches" "" "" 0 RES_PARSE_ERROR.
Proof.
  intros Ha Hr. apply parseResult_unmatched.
  destruct (FindStringSubmatch resultRegex (a +++ ":" +++ r)) as [ms|] eqn:E;
    [exfalso | reflexivity].
  apply FindStringSubmatch_forms in E.
  remember (a +++ ":" +++ r) as line eqn:L.
  assert (S : exists path body, allb notColon path = true /\
                                line = path +++ String ":" (String " " body)).
  { destruct E as [path status [_ P] _ | path desc status [_ P] _ _
                   | path desc hash digits status [_ P] _ _ _ _];
      eexists path, _; (split; [exact P | reflexivity]). }
  destruct S as [path [body [P ->]]].
  simpl in L.
  destruct (split_first notColon ":" _ _ _ _ eq_refl P Ha L) as [_ <-].
  unfold HasPrefix in Hr. destruct body; discriminate Hr.
Qed.

Lemma parseResult_first_colon_witness :
  parseResult ("C" +++ ":" +++ "\file.exe: OK")
  = mkScanResult ("C" +++ ":" +++ "\file.exe: OK")
                 "Regex had no matches" "" "" 0 RES_PARSE_ERROR.
Proof.
  apply (parseResult_first_colon "C" "\file.exe: OK"); reflexivity.
Defined.

(* ================================================================== *)
(** ** The parser inverts the line format *)

Lemma has_colon (x y : string) : allb notColon (x +++ String ":" y) = false.
Proof. rewrite allb_append. simpl. now rewrite andb_false_r. Qed.

(** the body of a matched line, after the path, the colon and the space *)
Lemma lineForm_body (path body : string) (ms : list string) :
  colonFree path ->
  lineForm (path +++ ": " +++ body) ms ->
  nth 1 ms "" = path /\ isStatus (nth 8 ms "") /\
  ((body = nth 8 ms "" /\
    nth 3 ms "" = "" /\ nth 5 ms "" = "" /\ nth 7 ms "" = "") \/
   (body = (nth 3 ms "" +++ " ") +++ nth 8 ms "" /\
    colonFree (nth 3 ms "") /\ nth 5 ms "" = "" /\ nth 7 ms "" = "") \/
   (body = (nth 3 ms "" +++ "(" +++ nth 5 ms "")
             +++ String ":" ((nth 7 ms "" +++ ") ") +++ nth 8 ms "") /\
    colonFree (nth 3 ms "") /\ colonFree (nth 5 ms "") /\
    digitString (nth 7 ms ""))).
Proof.
  intros [_ P] F.
  remember (path +++ ": " +++ body) as line eqn:L.
  destruct F as [path' status [_ P'] St | path' desc status [_ P'] D St
                 | path' desc hash digits status [_ P'] D H N St];
    simpl in L;
    destruct (split_first notColon ":" _ _ _ _ eq_refl P' P L) as [-> B];
    injection B as <-; cbn [nth]; (split; [reflexivity|]); (split; [exact St|]).
  - left. auto.
  - right. left. rewrite append_assoc. auto.
  - right. right. split; [|auto].
    repeat (rewrite append_assoc; simpl). reflexivity.
Qed.

(** X7: the line [path: status], with [path] non-empty and colon-free and
    [status] one of FOUND, ERROR and OK, is parsed into that path and that
    status, with empty description and hash and size zero. *)
Theorem parse_plain_line (path status : string) :
  colonFree path -> isStatus status ->
  parseResult (path +++ ": " +++ status)
  = mkScanResult (path +++ ": " +++ status) "" path "" 0 status.
Proof.
  intros P St.
  destruct (FindStringSubmatch resultRegex (path +++ ": " +++ status))
    as [ms|] eqn:E.
  2:{ exfalso. revert E. apply (forms_matched _ _ (form_plain path status P St)). }
  rewrite (parseResult_accepted _ ms E).
  apply FindStringSubmatch_forms in E.
  destruct (lineForm_body path status ms P E)
    as [-> [St' [[B [-> [-> ->]]] | [[B _] | [B _]]]]].
  - rewrite <- B. reflexivity.
  - exfalso. destruct (status_suffix "" _ _ _ St St' B) as [U _].
    destruct (nth 3 ms ""); discriminate U.
  - exfalso. apply (f_equal (allb notColon)) in B.
    rewrite has_colon, (status_colonFree _ St) in B. discriminate B.
Qed.

Lemma parse_plain_line_witness :
  parseResult ("/tmp/file" +++ ": " +++ "OK")
  = mkScanResult ("/tmp/file" +++ ": " +++ "OK") "" "/tmp/file" "" 0 "OK".
Proof.
  apply (parse_plain_line "/tmp/file" "OK").
  - split; [discriminate | reflexivity].
  - right. right. reflexivity.
Defined.

(** X8: the line [path: desc status], with [path] and [desc] non-empty and
    colon-free, is parsed into that path, that description and that status,
    with empty hash and size zero; the description may contain spaces and
    parentheses. *)
Theorem parse_described_line (path desc status : string) :
  colonFree path -> colonFree desc -> isStatus status ->
  parseResult (path +++ ": " +++ desc +++ " " +++ status)
  = mkScanResult (path +++ ": " +++ desc +++ " " +++ status) desc path "" 0 status.
Proof.
  intros P D St.
  destruct (FindStringSubmatch resultRegex (path +++ ": " +++ desc +++ " " +++ status))
    as [ms|] eqn:E.
  2:{ exfalso. revert E.
      apply (forms_matched _ _ (form_desc path desc status P D St)). }
  rewrite (parseResult_accepted _ ms E).
  apply FindStringSubmatch_forms in E.
  destruct (lineForm_body path (desc +++ " " +++ status) ms P E)
    as [-> [St' [[B _] | [[B [_ [-> ->]]] | [B _]]]]].
  - exfalso. rewrite <- append_assoc in B.
    destruct (status_suffix _ "" _ _ St St' B) as [U _].
    destruct desc; discriminate U.
  - rewrite <- append_assoc in B.
    destruct (status_suffix _ _ _ _ St St' B) as [U <-].
    apply append_cancel_r in U. rewrite <- U. reflexivity.
  - exfalso. apply (f_equal (allb notColon)) in B.
    rewrite has_colon, !allb_append, (proj2 D), (status_colonFree _ St) in B.
    discriminate B.
Qed.

Lemma parse_described_line_witness :
  parseResult ("/tmp/f" +++ ": " +++ "Can't open file (x)" +++ " " +++ "ERROR")
  = mkScanResult ("/tmp/f" +++ ": " +++ "Can't open file (x)" +++ " " +++ "ERROR")
                 "Can't open file (x)" "/tmp/f" "" 0 "ERROR".
Proof.
  apply (parse_described_line "/tmp/f" "Can't open file (x)" "ERROR").
  - split; [discriminate | reflexivity].
  - split; [discriminate | reflexivity].
  - right. left. reflexivity.
Defined.

(* ================================================================== *)
(** ** Reading the response *)

Lemma TrimRight_snoc (s cutset : string) (c : ascii) :
  inCutset c cutset = true ->
  TrimRight (s +++ String c "") cutset = TrimRight s cutset.
Proof.
  intro Hc. induction s as [|a s IH]; simpl.
  - now rewrite Hc.
  - now rewrite IH.
Qed.

Lemma TrimRight_allb (p : ascii -> bool) (s cutset : string) :
  allb p s = true -> allb p (TrimRight s cutset) = true.
Proof.
  induction s as [|a s IH]; simpl; intro H; [reflexivity|].
  apply andb_true_iff in H. destruct H as [Ha Hs]. specialize (IH Hs).
  destruct (TrimRight s cutset) as [|k ks].
  - destruct (inCutset a cutset); simpl; [reflexivity | now rewrite Ha].
  - simpl in *. now rewrite Ha, IH.
Qed.

Lemma TrimRight_last (s cutset : string) (c : ascii) :
  lastByte (TrimRight s cutset) = Some c -> inCutset c cutset = false.
Proof.
  induction s as [|a s IH]; simpl; [discriminate|].
  destruct (TrimRight s cutset) as [|k ks].
  - destruct (inCutset a cutset) eqn:Ha; simpl; [discriminate|].
    intro H. inversion H; subst. assumption.
  - intro H. apply IH. exact H.
Qed.

Lemma lineFree_append (a b : string) :
  lineFree a -> lineFree b -> lineFree (a +++ b).
Proof. unfold lineFree. intros Ha Hb. now rewrite allb_append, Ha, Hb. Qed.

(** one complete line at the head of the input *)
Lemma readLoop_line (l : string) :
  lineFree l ->
  forall cur rest,
    readLoop cur (l +++ String LF rest)
    = parseResult (TrimRight (cur +++ l) lineCutset) :: readLoop "" rest.
Proof.
  induction l as [|a l IH]; intros Hl cur rest.
  - simpl. rewrite append_empty_r.
    change (String " " (String "009" (String "013" (String LF ""))))
      with lineCutset.
    now rewrite TrimRight_snoc.
  - unfold lineFree in Hl. simpl in Hl.
    apply andb_true_iff in Hl. destruct Hl as [Ha Hl].
    apply negb_true_iff in Ha. simpl. rewrite Ha.
    rewrite (IH Hl). now rewrite append_assoc.
Qed.

(** X10: when the daemon sends the lines [lines], each ended by a line
    feed, and then an unfinished [tail], the reader loop delivers one record
    per line, in order, each the parse of the line with its trailing spaces,
    tabs and carriage returns removed; the unfinished tail is dropped. *)
Theorem readLoop_lines (lines : list string) (tail : string) :
  Forall lineFree lines -> lineFree tail ->
  readLoop "" (joinLines lines +++ tail)
  = map (fun l => parseResult (TrimRight l lineCutset)) lines.
Proof.
  intros Hl Ht. induction Hl as [|l ls Hl _ IH]; cbn [joinLines map].
  - now apply readLoop_no_line.
  - rewrite append_assoc. cbn [append].
    rewrite (readLoop_line l Hl). cbn [append]. now rewrite IH.
Qed.

Lemma readLoop_lines_witness :
  readLoop "" (joinLines ["/a: OK "; "/b: X FOUND" +++ String "013" ""] +++ "/c: O")
  = map (fun l => parseResult (TrimRight l lineCutset))
        ["/a: OK "; "/b: X FOUND" +++ String "013" ""].
Proof.
  apply (readLoop_lines ["/a: OK "; "/b: X FOUND" +++ String "013" ""] "/c: O").
  - repeat constructor.
  - reflexivity.
Defined.

(** X11: the reader loop delivers exactly as many records as the daemon
    sent line feeds. *)
Theorem readLoop_count (input cur : string) :
  List.length (readLoop cur input) = countByte LF input.
Proof.
  revert cur. induction input as [|a input IH]; intro cur; simpl.
  - reflexivity.
  - destruct (Ascii.eqb a LF); simpl; now rewrite IH.
Qed.

(** X12: the raw text of every record the reader loop delivers contains no
    line feed and does not end in a space, a tab, a carriage return or a
    line feed. *)
Theorem readLoop_raw (input : string) :
  Forall (fun r => lineFree (Raw r) /\
                   forall c, lastByte (Raw r) = Some c ->
                             inCutset c lineCutset = false)
         (readLoop "" input).
Proof.
  enough (G : forall cur, lineFree cur ->
              Forall (fun r => lineFree (Raw r) /\
                               forall c, lastByte (Raw r) = Some c ->
                                         inCutset c lineCutset = false)
                     (readLoop cur input))
    by (apply G; reflexivity).
  induction input as [|a input IH]; intros cur Hc; simpl.
  - constructor.
  - destruct (Ascii.eqb a LF) eqn:Ea.
    + apply Ascii.eqb_eq in Ea. subst a.
      constructor; [|apply IH; reflexivity].
      rewrite parseResult_Raw.
      change (String " " (String "009" (String "013" (String LF ""))))
        with lineCutset.
      rewrite TrimRight_snoc by reflexivity.
      split.
      * now apply TrimRight_allb.
      * intros c. apply TrimRight_last.
    + apply IH. apply lineFree_append; [assumption|].
      unfold lineFree. simpl. now rewrite Ea.
Qed.

(* ================================================================== *)
(** ** The commands on an established connection *)

Lemma simpleCommand_established (w : World) (c : Clamd) (conn : CLAMDConn)
      (command : string) :
  snd (newConnection w c) = inl conn ->
  hd None (writeFaults conn) = None ->
  simpleCommand w c command = inl (readLoop "" (incoming conn)).
Proof.
  intros Hc Hw. unfold simpleCommand. rewrite Hc.
  unfold sendCommand, Write.
  destruct (writeFaults conn) as [|[e|] script]; simpl in Hw; try discriminate;
    reflexivity.
Qed.

(** X13: once the connection is established and the command written,
    [Version] and the five scan commands return the channel that carries
    one parsed record per reply line, in the order the daemon sent them. *)
Theorem commands_deliver_lines (w : World) (c : Clamd) (conn : CLAMDConn)
        (lines : list string) (tail path : string) :
  snd (newConnection w c) = inl conn ->
  hd None (writeFaults conn) = None ->
  incoming conn = joinLines lines +++ tail ->
  Forall lineFree lines -> lineFree tail ->
  let records := map (fun l => parseResult (TrimRight l lineCutset)) lines in
  Version w c = inl records /\
  ScanFile w c path = inl records /\
  RawScanFile w c path = inl records /\
  MultiScanFile w c path = inl records /\
  ContScanFile w c path = inl records /\
  AllMatchScanFile w c path = inl records.
Proof.
  intros Hc Hw Hin Hl Ht records.
  unfold Version, ScanFile, RawScanFile, MultiScanFile, ContScanFile,
    AllMatchScanFile.
  rewrite !(simpleCommand_established w c conn _ Hc Hw), Hin.
  assert (R : readLoop "" (joinLines lines +++ tail) = records).
  { unfold records. clear Hin.
    induction Hl as [|l ls Hl _ IH]; cbn [joinLines map].
    - now apply readLoop_no_line.
    - rewrite append_assoc. cbn [append].
      rewrite (readLoop_line l Hl). cbn [append]. now rewrite IH. }
  rewrite R. repeat split.
Qed.

Lemma commands_deliver_lines_witness :
  let records := map (fun l => parseResult (TrimRight l lineCutset))
                     ["/tmp/a: OK"; "/tmp/b: Eicar FOUND"] in
  let w := healthyWorld (joinLines ["/tmp/a: OK"; "/tmp/b: Eicar FOUND"] +++ "") in
  Version w (NewClamd "/tmp/clamd.socket") = inl records /\
  ScanFile w (NewClamd "/tmp/clamd.socket") "/tmp" = inl records /\
  RawScanFile w (NewClamd "/tmp/clamd.socket") "/tmp" = inl records /\
  MultiScanFile w (NewClamd "/tmp/clamd.socket") "/tmp" = inl records /\
  ContScanFile w (NewClamd "/tmp/clamd.socket") "/tmp" = inl records /\
  AllMatchScanFile w (NewClamd "/tmp/clamd.socket") "/tmp" = inl records.
Proof.
  apply (commands_deliver_lines
           (healthyWorld (joinLines ["/tmp/a: OK"; "/tmp/b: Eicar FOUND"] +++ ""))
           (NewClamd "/tmp/clamd.socket")
           (mkConn [] [] (joinLines ["/tmp/a: OK"; "/tmp/b: Eicar FOUND"] +++ ""))
           ["/tmp/a: OK"; "/tmp/b: Eicar FOUND"] "" "/tmp").
  - reflexivity.
  - reflexivity.
  - reflexivity.
  - repeat constructor.
  - reflexivity.
Defined.

(** X14: [Shutdown] returns no error exactly when the connection is
    established and the command written; what the daemon replies, if
    anything, has no influence. *)
Theorem Shutdown_ok_iff (w : World) (c : Clamd) :
  Shutdown w c = None <->
  exists conn, snd (newConnection w c) = inl conn /\
               hd None (writeFaults conn) = None.
Proof.
  unfold Shutdown, simpleCommand. split.
  - destruct (snd (newConnection w c)) as [conn | e]; [|discriminate].
    intro H. exists conn. split; [reflexivity|].
    unfold sendCommand, Write in H.
    destruct (writeFaults conn) as [|[e|] script]; simpl in *;
      [reflexivity | discriminate | reflexivity].
  - intros [conn [Hc Hw]]. rewrite Hc.
    unfold sendCommand, Write.
    destruct (writeFaults conn) as [|[e|] script]; simpl in *;
      [reflexivity | discriminate | reflexivity].
Qed.

(** X15: once the connection is established and the command written, and
    the daemon has sent at least one complete line, [Ping] and [Reload]
    look at the first line only, with its trailing white space removed:
    they return nil when it equals PONG, respectively RELOADING, and the
    "Invalid response" error built from its record otherwise. *)
Theorem ping_reload_first_line (w : World) (c : Clamd) (conn : CLAMDConn)
        (l rest : string) :
  snd (newConnection w c) = inl conn ->
  hd None (writeFaults conn) = None ->
  incoming conn = l +++ String LF rest ->
  lineFree l ->
  Ping w c = (if String.eqb (TrimRight l lineCutset) "PONG" then Ret None
              else Ret (Some (InvalidResponse
                                (parseResult (TrimRight l lineCutset))))) /\
  Reload w c = (if String.eqb (TrimRight l lineCutset) "RELOADING" then Ret None
                else Ret (Some (InvalidResponse
                                  (parseResult (TrimRight l lineCutset))))).
Proof.
  intros Hc Hw Hin Hl. unfold Ping, Reload.
  rewrite !(simpleCommand_established w c conn _ Hc Hw), Hin.
  rewrite (readLoop_line l Hl). unfold expectLine, recv. cbn [hd_error].
  rewrite parseResult_Raw. cbn [append]. split; reflexivity.
Qed.

Lemma ping_reload_first_line_witness :
  Ping (healthyWorld ("PONG " +++ String LF "more"))
       (NewClamd "/tmp/clamd.socket")
  = (if String.eqb (TrimRight "PONG " lineCutset) "PONG" then Ret None
     else Ret (Some (InvalidResponse (parseResult (TrimRight "PONG " lineCutset))))) /\
  Reload (healthyWorld ("PONG " +++ String LF "more"))
         (NewClamd "/tmp/clamd.socket")
  = (if String.eqb (TrimRight "PONG " lineCutset) "RELOADING" then Ret None
     else Ret (Some (InvalidResponse (parseResult (TrimRight "PONG " lineCutset))))).
Proof.
  apply (ping_reload_first_line
           (healthyWorld ("PONG " +++ String LF "more"))
           (NewClamd "/tmp/clamd.socket")
           (mkConn [] [] ("PONG " +++ String LF "more")) "PONG " "more");
    reflexivity.
Defined.

(* ================================================================== *)
(** ** Statistics: how the records are aggregated *)

Lemma HasPrefix_split (p s : string) :
  HasPrefix s p = true -> exists t, s = p +++ t.
Proof.
  unfold HasPrefix. revert s. induction p as [|a p IH]; intros s H.
  - exists s. reflexivity.
  - destruct s as [|b s]; simpl in H; [discriminate|].
    destruct (ascii_dec a b) as [<- | _]; [|discriminate].
    destruct (IH s H) as [t ->]. exists t. reflexivity.
Qed.

Lemma HasPrefix_append (p t : string) : HasPrefix (p +++ t) p = true.
Proof.
  unfold HasPrefix. induction p as [|a p IH]; simpl.
  - destruct t; reflexivity.
  - destruct (ascii_dec a a); [assumption | contradiction].
Qed.

(** the slice [s.Raw[6:]] of a POOLS line is out of range for the bare
    keyword only *)
Lemma pools_slice (raw : string) :
  HasPrefix raw "POOLS" = true ->
  (raw = "POOLS" /\ sliceFrom raw 6 = None) \/
  (raw <> "POOLS" /\ exists tail, sliceFrom raw 6 = Some tail).
Proof.
  intro H. apply HasPrefix_split in H. destruct H as [t ->].
  destruct t as [|a t].
  - left. split; reflexivity.
  - right. split; [discriminate | exists t; reflexivity].
Qed.

Lemma statsStep_fault (stats : Stats) (s : ScanResult) :
  Raw s = "POOLS" -> statsStep stats s = Panic "slice bounds out of range".
Proof. intro H. unfold statsStep. rewrite H. reflexivity. Qed.

Lemma statsStep_returns (stats : Stats) (s : ScanResult) :
  Raw s <> "POOLS" -> exists stats', statsStep stats s = Ret stats'.
Proof.
  intro H. unfold statsStep.
  destruct (HasPrefix (Raw s) "POOLS") eqn:P.
  - destruct (pools_slice _ P) as [[E _] | [_ [tail ->]]]; [contradiction|].
    eexists. reflexivity.
  - repeat match goal with
           | |- context [if ?b then _ else _] => destruct b
           end; eexists; reflexivity.
Qed.









(** the reply of the witness, run: the pool text is what follows the six
    bytes [POOLS:], trimmed, and the state line is kept whole *)
Example stats_pools_after_state :
  Clamd_Stats (healthyWorld ("STATE: VALID PRIMARY" +++ String LF
                             ("POOLS: 1" +++ String LF ("END" +++ String LF ""))))
              (NewClamd "/tmp/clamd.socket")
  = Ret (Some (mkStats "1" "STATE: VALID PRIMARY" "" "" ""), None).
Proof. vm_compute. reflexivity. Qed.

(** X16: once the connection is established and the command written,
    [Stats] faults exactly when one of the reply lines, trimmed, is the bare
    keyword POOLS; otherwise it returns a record and a nil error. *)
Theorem Stats_fault_iff (w : World) (c : Clamd) (conn : CLAMDConn) :
  snd (newConnection w c) = inl conn ->
  hd None (writeFaults conn) = None ->
  (Exists (fun s => Raw s = "POOLS") (readLoop "" (incoming conn)) ->
   Clamd_Stats w c = Panic "slice bounds out of range") /\
  (Forall (fun s => Raw s <> "POOLS") (readLoop "" (incoming conn)) ->
   exists stats, Clamd_Stats w c = Ret (Some stats, None)).
Proof.
  intros Hc Hw. unfold Clamd_Stats.
  rewrite (simpleCommand_established w c conn _ Hc Hw).
  generalize (readLoop "" (incoming conn)) as ch.
  generalize (mkStats "" "" "" "" "") as stats.
  intros stats ch. split.
  - intro E. revert stats. induction ch as [|s ch IH]; intro stats.
    + inversion E.
    + cbn [statsLoop].
      destruct (string_dec (Raw s) "POOLS") as [P | P].
      * now rewrite (statsStep_fault stats s P).
      * destruct (statsStep_returns stats s P) as [stats' ->].
        apply IH. inversion E; subst; [contradiction | assumption].
  - intro F. revert stats. induction F as [|s ch P _ IH]; intro stats.
    + exists stats. reflexivity.
    + cbn [statsLoop].
      destruct (statsStep_returns stats s P) as [stats' ->].
      apply IH.
Qed.

Lemma Stats_fault_iff_witness :
  (Exists (fun s => Raw s = "POOLS")
          (readLoop "" (incoming (mkConn [] [] ("POOLS" +++ String LF "")))) ->
   Clamd_Stats (healthyWorld ("POOLS" +++ String LF "")) (NewClamd "/tmp/clamd.socket")
   = Panic "slice bounds out of range") /\
  (Forall (fun s => Raw s <> "POOLS")
          (readLoop "" (incoming (mkConn [] [] ("POOLS" +++ String LF "")))) ->
   exists stats,
     Clamd_Stats (healthyWorld ("POOLS" +++ String LF "")) (NewClamd "/tmp/clamd.socket")
     = Ret (Some stats, None)).
Proof.
  apply (Stats_fault_iff (healthyWorld ("POOLS" +++ String LF ""))
                         (NewClamd "/tmp/clamd.socket")
                         (mkConn [] [] ("POOLS" +++ String LF "")));
    reflexivity.
Defined.

(** X17: when the loop of [Stats] returns, each of [State], [Threads],
    [Memstats] and [Queue] holds the whole raw text of the last record that
    starts with its keyword, [Pools] holds the trimmed text after the
    first six bytes of the last POOLS record, and a field without such a
    record keeps its former value; END lines and lines that start with no
    keyword change nothing. *)
Theorem statsLoop_fields (ch : list ScanResult) :
  forall stats stats',
    statsLoop stats ch = Ret stats' ->
    Pools stats' = lastPools ch (Pools stats) /\
    State stats' = lastSection "STATE" ch (State stats) /\
    Threads stats' = lastSection "THREADS" ch (Threads stats) /\
    Memstats stats' = lastSection "MEMSTATS" ch (Memstats stats) /\
    Queue stats' = lastSection "QUEUE" ch (Queue stats).
Proof.
  induction ch as [|s ch IH]; intros stats stats' H.
  - inversion H; subst. repeat split.
  - cbn [statsLoop] in H.
    destruct (statsStep stats s) as [stats1 | msg] eqn:S1; [|discriminate H].
    destruct (IH _ _ H) as (HP & HS & HT & HM & HQ).
    rewrite HP, HS, HT, HM, HQ. clear IH H HP HS HT HM HQ.
    cbn [lastPools lastSection].
    unfold statsStep in S1.
    destruct (HasPrefix (Raw s) "POOLS") eqn:P1.
    { destruct (HasPrefix_split _ _ P1) as [t E]. rewrite E in *.
      destruct (sliceFrom ("POOLS" +++ t) 6); [|discriminate S1].
      inversion S1; subst. cbn [Pools State Threads Memstats Queue].
      repeat split. }
    destruct (HasPrefix (Raw s) "STATE") eqn:P2.
    { destruct (HasPrefix_split _ _ P2) as [t E]. rewrite E in *.
      inversion S1; subst. cbn [Pools State Threads Memstats Queue].
      repeat split. }
    destruct (HasPrefix (Raw s) "THREADS") eqn:P3.
    { destruct (HasPrefix_split _ _ P3) as [t E]. rewrite E in *.
      inversion S1; subst. cbn [Pools State Threads Memstats Queue].
      repeat split. }
    destruct (HasPrefix (Raw s) "QUEUE") eqn:P4.
    { destruct (HasPrefix_split _ _ P4) as [t E]. rewrite E in *.
      inversion S1; subst. cbn [Pools State Threads Memstats Queue].
      repeat split. }
    destruct (HasPrefix (Raw s) "MEMSTATS") eqn:P5.
    { destruct (HasPrefix_split _ _ P5) as [t E]. rewrite E in *.
      inversion S1; subst. cbn [Pools State Threads Memstats Queue].
      repeat split. }
    assert (stats1 = stats) by (destruct (HasPrefix (Raw s) "END"); now inversion S1).
    subst. repeat split.
Qed.

Lemma statsLoop_fields_witness :
  Pools (mkStats "1" "STATE: B" "" "" "")
  = lastPools [parseResult "STATE: A"; parseResult "POOLS: 1"; parseResult "END";
               parseResult "STATE: B"] "" /\
  State (mkStats "1" "STATE: B" "" "" "")
  = lastSection "STATE" [parseResult "STATE: A"; parseResult "POOLS: 1";
                         parseResult "END"; parseResult "STATE: B"] "" /\
  Threads (mkStats "1" "STATE: B" "" "" "")
  = lastSection "THREADS" [parseResult "STATE: A"; parseResult "POOLS: 1";
                           parseResult "END"; parseResult "STATE: B"] "" /\
  Memstats (mkStats "1" "STATE: B" "" "" "")
  = lastSection "MEMSTATS" [parseResult "STATE: A"; parseResult "POOLS: 1";
                            parseResult "END"; parseResult "STATE: B"] "" /\
  Queue (mkStats "1" "STATE: B" "" "" "")
  = lastSection "QUEUE" [parseResult "STATE: A"; parseResult "POOLS: 1";
                         parseResult "END"; parseResult "STATE: B"] "".
Proof.
  apply (statsLoop_fields
           [parseResult "STATE: A"; parseResult "POOLS: 1"; parseResult "END";
            parseResult "STATE: B"]
           (mkStats "" "" "" "" "") (mkStats "1" "STATE: B" "" "" "")).
  vm_compute. reflexivity.
Defined.

(* ================================================================== *)
(** ** Framing: further properties *)

(** X18: for a payload of any length the prefix written by [sendChunk]
    decodes to the length modulo [2^32]: the conversions to [byte] keep the
    low 32 bits, so a payload of [2^32] bytes would be announced by the
    four zero bytes of the terminator. *)
Theorem chunkHeader_wraps (data : list Z) :
  be32 (chunkHeader data) = (Z.of_nat (List.length data) mod 2 ^ 32)%Z.
Proof.
  unfold chunkHeader, be32, byte.
  set (L := Z.of_nat (List.length data)).
  assert (0 <= L)%Z by (unfold L; lia).
  rewrite !Z.shiftr_div_pow2 by lia.
  change (2 ^ 24)%Z with 16777216%Z. change (2 ^ 16)%Z with 65536%Z.
  change (2 ^ 8)%Z with 256%Z. change (2 ^ 0)%Z with 1%Z.
  change (2 ^ 32)%Z with 4294967296%Z.
  Z.div_mod_to_equations. lia.
Qed.

Lemma bytesOf_count (s : string) :
  count_occ Z.eq_dec (bytesOf s) 10%Z = countByte LF s.
Proof.
  unfold bytesOf. induction s as [|a s IH]; simpl; [reflexivity|].
  rewrite IH.
  destruct (Z.eq_dec (Z.of_nat (nat_of_ascii a)) 10) as [E | E];
    destruct (Ascii.eqb a LF) eqn:A; try reflexivity; exfalso.
  - apply Ascii.eqb_neq in A. apply A.
    rewrite <- (ascii_nat_embedding a), <- (ascii_nat_embedding LF).
    f_equal. change (nat_of_ascii LF) with 10. lia.
  - apply Ascii.eqb_eq in A. subst a. apply E. reflexivity.
Qed.

Lemma bytesOf_append (a b : string) : bytesOf (a +++ b) = bytesOf a ++ bytesOf b.
Proof.
  unfold bytesOf. induction a as [|x a IH]; simpl; [reflexivity|].
  now rewrite IH.
Qed.

(** X19: on a connection whose write succeeds, [sendCommand] writes one
    slice: the byte [n], the bytes of the command, a line feed.  The slice
    holds one line feed more than the command, so a command that contains a
    line feed (a path handed to a scan command, say) reaches the daemon as
    several lines. *)
Theorem sendCommand_frame (log : list (list Z)) (inc command : string) :
  sendCommand (mkConn log [] inc) command
  = (mkConn (log ++ [110%Z :: bytesOf command ++ [10%Z]]) [] inc, None) /\
  count_occ Z.eq_dec (110%Z :: bytesOf command ++ [10%Z]) 10%Z
  = S (countByte LF command).
Proof.
  split.
  - unfold sendCommand. rewrite Write_healthy.
    now rewrite !bytesOf_append.
  - cbn [count_occ]. destruct (Z.eq_dec 110 10) as [E | _]; [discriminate E|].
    rewrite count_occ_app, bytesOf_count. simpl. lia.
Qed.

(* ================================================================== *)
(** ** The transport resolver: further properties *)

Lemma cutFragment_fst_append (a rest : string) :
  allb (fun x => negb (Ascii.eqb x "#"%char)) a = true ->
  fst (Url.cutFragment (a +++ rest)) = a +++ fst (Url.cutFragment rest).
Proof.
  induction a as [|x a IH]; simpl; intro H; [reflexivity|].
  apply andb_true_iff in H. destruct H as [Hx Ha].
  apply negb_true_iff in Hx. rewrite Hx.
  specialize (IH Ha).
  destruct (Url.cutFragment (a +++ rest)) as [u frag].
  simpl in *. now rewrite IH.
Qed.

Lemma containsCTL_append (a b : string) (c : ascii) :
  isCTL c = true -> Url.stringContainsCTLByte (a +++ String c b) = true.
Proof.
  intro H. unfold Url.stringContainsCTLByte.
  rewrite allb_append. simpl. unfold isCTL in H. rewrite H. simpl.
  now rewrite andb_false_r.
Qed.

(** X21: whatever the rest of [net/url] and the network do, an address
    that begins with a colon, and an address with a control byte (below
    0x20, or 0x7f) in front of any [#], are refused by [newConnection] with
    an error and without a dial. *)
Theorem newConnection_rejects (w : World) :
  (forall rest,
      exists err, newConnection w (NewClamd (":" +++ rest)) = ([], inr err)) /\
  (forall a b c,
      isCTL c = true ->
      allb (fun x => negb (Ascii.eqb x "#"%char)) a = true ->
      exists err, newConnection w (NewClamd (a +++ String c b)) = ([], inr err)).
Proof.
  split.
  - intro rest. unfold newConnection, NewClamd, address, url_Parse.
    cbn [append Url.cutFragment Ascii.eqb Bool.eqb].
    destruct (Url.cutFragment rest) as [u frag].
    unfold url_parse.
    destruct (Url.stringContainsCTLByte (String ":" u)); eexists; reflexivity.
  - intros a b c Hc Ha. unfold newConnection, NewClamd, address, url_Parse.
    pose proof (cutFragment_fst_append a (String c b) Ha) as F.
    destruct (Url.cutFragment (a +++ String c b)) as [u frag].
    cbn [fst] in F. subst u.
    assert (Hh : Ascii.eqb c "#"%char = false).
    { destruct (Ascii.eqb c "#"%char) eqn:E; [|reflexivity].
      apply Ascii.eqb_eq in E. subst c. discriminate Hc. }
    cbn [Url.cutFragment]. rewrite Hh.
    destruct (Url.cutFragment b) as [u' frag']. cbn [fst].
    unfold url_parse. rewrite (containsCTL_append a u' c Hc).
    eexists. reflexivity.
Qed.

Lemma newConnection_rejects_witness :
  exists err,
    newConnection (healthyWorld "")
                  (NewClamd ("/tmp/clamd" +++ String "009" ".socket"))
    = ([], inr err).
Proof.
  apply (proj2 (newConnection_rejects (healthyWorld ""))
               "/tmp/clamd" ".socket" "009"%char); reflexivity.
Defined.

(* ================================================================== *)
(** ** Stream upload: further properties *)

Lemma chunkSizes_step (len : nat) :
  0 < len ->
  Nat.min CHUNK_SIZE len :: chunkSizes (len - CHUNK_SIZE) = chunkSizes len.
Proof.
  intro Hlen. unfold chunkSizes.
  assert (HC : 0 < CHUNK_SIZE) by (unfold CHUNK_SIZE; apply Nat.lt_0_succ).
  remember CHUNK_SIZE as C eqn:EC. clear EC.
  destruct (Nat.lt_ge_cases len C) as [Hlt | Hge].
  - rewrite Nat.min_r by lia.
    replace (len - C) with 0 by lia.
    rewrite (Nat.div_small len C Hlt), (Nat.mod_small len C Hlt).
    rewrite Nat.Div0.div_0_l, Nat.Div0.mod_0_l.
    destruct (Nat.eqb_spec len 0); [lia|]. reflexivity.
  - rewrite Nat.min_l by lia.
    assert (E : exists m, len = m + 1 * C) by (exists (len - C); lia).
    destruct E as [m ->].
    replace (m + 1 * C - C) with m by lia.
    rewrite Nat.div_add by lia. rewrite Nat.Div0.mod_add.
    rewrite Nat.add_1_r. reflexivity.
Qed.

Lemma relay_bytesReader (n : nat) :
  forall (data : list Z) (log : list (list Z)) (inc : string) (k : nat),
    List.length data <= n ->
    exists chunks,
      relay bytesReader (S n + k) data (mkConn log [] inc)
      = Some (Ret (mkConn (log ++ frames chunks) [] inc)) /\
      List.concat chunks = data /\
      map (@List.length Z) chunks = chunkSizes (List.length data).
Proof.
  assert (HC : 0 < CHUNK_SIZE) by (unfold CHUNK_SIZE; apply Nat.lt_0_succ).
  induction n as [|n IH]; intros data log inc k Hn.
  - destruct data; [|simpl in Hn; lia].
    exists []. split; [|split; reflexivity].
    cbn [Nat.add]. rewrite (relay_step_end bytesReader k [] [] _ EOF eq_refl).
    unfold frames. cbn [flat_map]. now rewrite app_nil_r.
  - destruct data as [|z data'] eqn:D.
    + exists []. split; [|split; reflexivity].
      cbn [Nat.add]. rewrite (relay_step_end bytesReader _ [] [] _ EOF eq_refl).
      unfold frames. cbn [flat_map]. now rewrite app_nil_r.
    + rewrite <- D in *.
      assert (N : data <> []) by (rewrite D; discriminate).
      assert (L : 0 < List.length data) by (rewrite D; simpl; lia).
      clear D z data'.
      cbn [Nat.add].
      rewrite (relay_step_chunk _ _ _ _ _ _ (bytesReader_unread data CHUNK_SIZE N)).
      2:{ rewrite length_firstn. lia. }
      rewrite sendChunk_healthy. cbn [fst].
      destruct (IH (skipn CHUNK_SIZE data) (log ++ [chunkHeader (firstn CHUNK_SIZE data);
                                                    firstn CHUNK_SIZE data]) inc k)
        as [chunks [R [Cc Cl]]].
      { rewrite length_skipn. lia. }
      exists (firstn CHUNK_SIZE data :: chunks). split; [|split].
      * change (S n + k) with (S (n + k)) in R. rewrite R.
        change (firstn CHUNK_SIZE data :: chunks)
          with ([firstn CHUNK_SIZE data] ++ chunks).
        rewrite frames_app, app_assoc. reflexivity.
      * cbn [List.concat]. rewrite Cc. apply firstn_skipn.
      * cbn [map]. rewrite Cl, length_firstn, length_skipn.
        now apply chunkSizes_step.
Qed.

(** X22: a [bytes.Reader] over any data is relayed completely and in
    order.  On a connection whose writes succeed, once the fuel exceeds the
    number of bytes, [ScanStream] has written the command, then data frames
    whose payloads concatenate to the data, all of them of [CHUNK_SIZE]
    bytes except a shorter last one when the length is no multiple of it,
    then the terminator, and it returns the channel. *)
Theorem ScanStream_bytesReader (w : World) (c : Clamd) (log : list (list Z))
        (inc : string) (data : list Z) (k : nat) :
  snd (newConnection w c) = inl (mkConn log [] inc) ->
  exists chunks,
    ScanStream w c bytesReader data (S (List.length data) + k)
    = Some (Ret (Some (mkConn (log ++ [bytesOf ("nINSTREAM" +++ String LF "")]
                                   ++ frames chunks ++ [[0; 0; 0; 0]%Z]) [] inc),
                 inl (readLoop "" inc))) /\
    List.concat chunks = data /\
    map (@List.length Z) chunks = chunkSizes (List.length data).
Proof.
  intro Hc.
  destruct (relay_bytesReader (List.length data) data
              (log ++ [bytesOf ("nINSTREAM" +++ String LF "")]) inc k (le_n _))
    as [chunks [R [Cc Cl]]].
  exists chunks. split; [|split; assumption].
  unfold ScanStream. rewrite Hc.
  unfold sendCommand. rewrite Write_healthy. cbn [fst].
  cbn [Nat.add] in R |- *.
  change ("n" +++ "INSTREAM" +++ String LF "") with ("nINSTREAM" +++ String LF "").
  rewrite R. unfold sendEOF. rewrite Write_healthy.
  unfold readResponse. cbn [incoming].
  rewrite <- !app_assoc. reflexivity.
Qed.

Lemma ScanStream_bytesReader_witness :
  exists chunks,
    ScanStream (healthyWorld "") (NewClamd "/tmp/clamd.socket") bytesReader
               [88; 53; 79]%Z (S (List.length [88; 53; 79]%Z) + 0)
    = Some (Ret (Some (mkConn ([] ++ [bytesOf ("nINSTREAM" +++ String LF "")]
                                  ++ frames chunks ++ [[0; 0; 0; 0]%Z]) [] ""),
                 inl (readLoop "" ""))) /\
    List.concat chunks = [88; 53; 79]%Z /\
    map (@List.length Z) chunks = chunkSizes (List.length [88; 53; 79]%Z).
Proof.
  apply (ScanStream_bytesReader (healthyWorld "") (NewClamd "/tmp/clamd.socket")
                                [] "" [88; 53; 79]%Z 0).
  reflexivity.
Defined.

Example chunk_sizes_2500 : chunkSizes 2500 = [1024; 1024; 452].
Proof. vm_compute. reflexivity. Qed.

Example chunk_sizes_2048 : chunkSizes 2048 = [1024; 1024].
Proof. vm_compute. reflexivity. Qed.

Lemma relay_never_ends {St : Type} (r : Reader St) :
  (forall st, snd (fst (r st CHUNK_SIZE)) = None /\
              List.length (fst (fst (r st CHUNK_SIZE))) <= CHUNK_SIZE) ->
  forall fuel st conn, relay r fuel st conn = None.
Proof.
  intros H fuel. induction fuel as [|fuel IH]; intros st conn; [reflexivity|].
  cbn [relay]. destruct (H st) as [He Hl].
  destruct (r st CHUNK_SIZE) as [[data err] st']. cbn [fst snd] in He, Hl.
  subst err. apply Nat.leb_le in Hl. rewrite Hl.
  destruct (Nat.ltb 0 (List.length data)); apply IH.
Qed.

(** X23: the loop of [ScanStream] ends only when the source reports an
    error.  With a source that never does (and keeps to the size of the
    buffer), [ScanStream] on an established connection is still running
    whatever the fuel: it never sends the terminator and never returns. *)
Theorem ScanStream_needs_source_error {St : Type} (r : Reader St)
        (w : World) (c : Clamd) (conn : CLAMDConn) :
  snd (newConnection w c) = inl conn ->
  (forall st, snd (fst (r st CHUNK_SIZE)) = None /\
              List.length (fst (fst (r st CHUNK_SIZE))) <= CHUNK_SIZE) ->
  forall fuel st, ScanStream w c r st fuel = None.
Proof.
  intros Hc H fuel st. unfold ScanStream. rewrite Hc.
  now rewrite (relay_never_ends r H).
Qed.

Lemma ScanStream_needs_source_error_witness :
  ScanStream (healthyWorld "") (NewClamd "/tmp/clamd.socket")
             (fun (st : unit) (_ : nat) => (([7%Z], None), st)) tt 1000 = None.
Proof.
  apply (ScanStream_needs_source_error
           (fun (st : unit) (_ : nat) => (([7%Z], None), st))
           (healthyWorld "") (NewClamd "/tmp/clamd.socket") (mkConn [] [] "")).
  - reflexivity.
  - intro st. split; [reflexivity|]. cbn [fst snd List.length].
    unfold CHUNK_SIZE. apply -> Nat.succ_le_mono. apply Nat.le_0_l.
Defined.

Lemma relay_mapError {St : Type} (f : error -> error) (r : Reader St) (fuel : nat) :
  forall st conn, relay (mapError f r) fuel st conn = relay r fuel st conn.
Proof.
  induction fuel as [|fuel IH]; intros st conn; [reflexivity|].
  cbn [relay]. unfold mapError at 1.
  destruct (r st CHUNK_SIZE) as [[data err] st'].
  destruct (Nat.ltb 0 (List.length data));
    [destruct (Nat.leb (List.length data) CHUNK_SIZE)|];
    destruct err; cbn [option_map]; try reflexivity; apply IH.
Qed.

(** X24: [ScanStream] does not look at the error that ends the source: an
    end of file and a read failure are treated alike.  Replacing every
    error of the source by another leaves the writes (terminator included)
    and the result unchanged. *)
Theorem ScanStream_any_source_error {St : Type} (f : error -> error)
        (r : Reader St) (w : World) (c : Clamd) (st : St) (fuel : nat) :
  ScanStream w c (mapError f r) st fuel = ScanStream w c r st fuel.
Proof.
  unfold ScanStream. destruct (snd (newConnection w c)); [|reflexivity].
  now rewrite relay_mapError.
Qed.

(* ================================================================== *)
(** ** The preference of the search: the longest description wins *)

Lemma flat_map_of_map {A B C : Type} (f : B -> list C) (g : A -> B) (l : list A) :
  flat_map f (map g l) = flat_map (fun x => f (g x)) l.
Proof. induction l as [|a l IH]; simpl; [reflexivity | now rewrite IH]. Qed.

Lemma map_of_flat_map {A B C : Type} (g : B -> C) (f : A -> list B) (l : list A) :
  map g (flat_map f l) = flat_map (fun x => map g (f x)) l.
Proof.
  induction l as [|a l IH]; simpl; [reflexivity|]. now rewrite map_app, IH.
Qed.

Lemma flat_map_of_flat_map {A B C : Type} (f : B -> list C) (g : A -> list B)
      (l : list A) :
  flat_map f (flat_map g l) = flat_map (fun x => flat_map f (g x)) l.
Proof.
  induction l as [|a l IH]; simpl; [reflexivity|].
  now rewrite flat_map_app, IH.
Qed.

(** the head of a [flat_map] is the head of the image of some element *)
Lemma flat_map_head {A B : Type} (f : A -> list B) (l : list A) (t : B)
      (tl : list B) :
  flat_map f l = t :: tl -> exists a tl', In a l /\ f a = t :: tl'.
Proof.
  induction l as [|a l IH]; simpl; intro H; [discriminate|].
  destruct (f a) as [|t0 tl0] eqn:E.
  - destruct (IH H) as [a' [tl' [Hin Hf]]]. exists a', tl'. auto.
  - simpl in H. inversion H; subst. exists a, tl0. auto.
Qed.

(** when the elements come in strictly decreasing order of a key, the head
    of a [flat_map] stems from the element of largest key whose image is
    not empty *)
Lemma flat_map_head_max {A B : Type} (key : A -> nat) (f : A -> list B)
      (l : list A) (t : B) (tl : list B) :
  decreasing key l ->
  flat_map f l = t :: tl ->
  exists a, In a l /\ In t (f a) /\
            forall a', In a' l -> f a' <> [] -> key a' <= key a.
Proof.
  induction l as [|a l IH]; simpl; [intros _ H; discriminate H|].
  intros [F S] H.
  destruct (f a) as [|t0 tl0] eqn:E.
  - destruct (IH S H) as [a0 [Hin [Ht Hm]]].
    exists a0. split; [auto|]. split; [assumption|].
    intros a' [<- | Hin'] Hne; [now rewrite E in Hne | now apply Hm].
  - simpl in H. inversion H; subst.
    exists a. split; [auto|]. split; [rewrite E; now left|].
    intros a' [<- | Hin'] _; [lia|].
    rewrite Forall_forall in F. specialize (F a' Hin'). lia.
Qed.

Lemma plusRuns_nonempty (p : ascii -> bool) (s : string) :
  Forall (fun xr => 0 < String.length (fst xr)) (plusRuns p s).
Proof.
  apply Forall_forall. intros [x r] H.
  destruct (plusRuns_sound p s x r H) as [_ [Hne _]].
  destruct x; [contradiction | simpl; lia].
Qed.

Lemma decreasing_extend (c : ascii) (s : string) (l : list (string * string)) :
  decreasing (fun xr => String.length (fst xr)) l ->
  Forall (fun xr => 0 < String.length (fst xr)) l ->
  decreasing (fun xr => String.length (fst xr))
             (map (fun xr => (String c (fst xr), snd xr)) l ++ [(String c "", s)]).
Proof.
  induction l as [|[x r] l IH]; simpl.
  - intros _ _. split; constructor.
  - intros [F S] N. inversion N as [|? ? Nx Nl]; subst.
    split; [|now apply IH].
    apply Forall_app. split.
    + apply Forall_map. eapply Forall_impl; [|exact F].
      intros [x' r'] L. simpl in *. lia.
    + constructor; [|constructor]. simpl in *. lia.
Qed.

(** the runs of [x+] are listed longest first *)
Lemma plusRuns_sorted (p : ascii -> bool) (s : string) :
  decreasing (fun xr => String.length (fst xr)) (plusRuns p s).
Proof.
  induction s as [|c s IH]; simpl; [exact I|].
  destruct (p c); [|exact I].
  apply decreasing_extend; [exact IH | apply plusRuns_nonempty].
Qed.

Lemma length_setCap (k : nat) (v : string) (c : caps) :
  List.length (setCap k v c) = List.length c.
Proof.
  revert c. induction k as [|k IH]; intros [|o c]; simpl; auto.
Qed.

Lemma nth_setCap_same (k : nat) (v : string) (c : caps) :
  k < List.length c -> nth k (setCap k v c) None = Some v.
Proof.
  revert c. induction k as [|k IH]; intros [|o c] H; simpl in *; try lia.
  - reflexivity.
  - apply IH. lia.
Qed.

Lemma nth_setCap_other (j k : nat) (v : string) (c : caps) :
  j <> k -> nth j (setCap k v c) None = nth j c None.
Proof.
  revert j c. induction k as [|k IH]; intros j [|o c] H; simpl.
  - reflexivity.
  - destruct j; [contradiction | reflexivity].
  - reflexivity.
  - destruct j; [reflexivity | apply IH; lia].
Qed.

(** a pattern leaves alone the groups it does not contain *)
Lemma matches_preserves (j : nat) (r : regex) :
  ~ In j (map fst (groups r)) ->
  forall pos x rest c c',
    matches r pos x rest c c' ->
    nth j c' None = nth j c None /\ List.length c' = List.length c.
Proof.
  induction r as [w | p | p | r1 IH1 r2 IH2 | r1 IH1 r2 IH2 | r1 IH1
                  | k name r1 IH1 | | ];
    intros Hj pos x rest c c' M; simpl in *.
  - destruct M as [_ ->]. auto.
  - destruct M as [a [_ [_ ->]]]. auto.
  - destruct M as [_ [_ ->]]. auto.
  - rewrite map_app, in_app_iff in Hj.
    destruct M as [x1 [x2 [cm [_ [M1 M2]]]]].
    destruct (IH1 (fun H => Hj (or_introl H)) _ _ _ _ _ M1) as [E1 L1].
    destruct (IH2 (fun H => Hj (or_intror H)) _ _ _ _ _ M2) as [E2 L2].
    split; congruence.
  - rewrite map_app, in_app_iff in Hj.
    destruct M as [M | M];
      [apply (IH1 (fun H => Hj (or_introl H)) _ _ _ _ _ M)
      | apply (IH2 (fun H => Hj (or_intror H)) _ _ _ _ _ M)].
  - destruct M as [M | [_ ->]]; [now apply (IH1 Hj _ _ _ _ _ M) | auto].
  - destruct M as [cm [M ->]].
    destruct (IH1 (fun H => Hj (or_intror H)) _ _ _ _ _ M) as [E L].
    rewrite nth_setCap_other, length_setCap by (intro; subst; apply Hj; now left).
    auto.
  - destruct M as [_ [_ ->]]. auto.
  - destruct M as [_ [_ ->]]. auto.
Qed.

(** every reading of a line in the grammar is one of the threads of the
    search *)
Lemma forms_thread (line : string) (ms : list string) :
  lineForm line ms ->
  exists cf, In (line, "", cf) (run resultRegex 0 line (repeat None 9)) /\
             map capText (setCap 0 line cf) = ms.
Proof.
  intro F.
  destruct F as [path status [P1 P2] St | path desc status [P1 P2] [D1 D2] St
                   | path desc hash digits status [P1 P2] [D1 D2] [H1 H2] [N1 N2] St].
  - eexists. split.
    {
        rewrite <- (append_empty_r (path +++ ": " +++ status)) at 2.
        apply run_complete. simpl.
        exists "", (path +++ ": " +++ status); eexists. split; [reflexivity|].
        split; [repeat split|].
        exists path, (": " +++ status); eexists. split; [reflexivity|].
        split; [eexists; repeat split; assumption|].
        exists ": ", status; eexists. split; [reflexivity|].
        split; [repeat split|].
        exists "", status; eexists. split; [reflexivity|].
        split; [right; repeat split|].
        exists status, ""; eexists. split; [now rewrite append_empty_r|].
        split; [|repeat split].
        eexists. split; [|reflexivity].
        destruct St as [-> | [-> | ->]]; simpl; auto. }
    reflexivity.
  - eexists. split.
    {
        rewrite <- (append_empty_r (path +++ ": " +++ desc +++ " " +++ status)) at 2.
        apply run_complete. simpl.
        exists "", (path +++ ": " +++ desc +++ " " +++ status); eexists. split; [reflexivity|].
        split; [repeat split|].
        exists path, (": " +++ desc +++ " " +++ status); eexists. split; [reflexivity|].
        split; [eexists; repeat split; assumption|].
        exists ": ", (desc +++ " " +++ status); eexists. split; [reflexivity|].
        split; [repeat split|].
        exists (desc +++ " "), status; eexists. split; [now rewrite append_assoc|].
        split.
        + left. eexists. split; [|reflexivity].
          exists desc, " "; eexists. split; [reflexivity|].
          split; [eexists; repeat split; assumption|].
          exists "", " "; eexists. split; [reflexivity|].
          split; [right; repeat split | repeat split].
        + exists status, ""; eexists. split; [now rewrite append_empty_r|].
          split; [|repeat split].
          eexists. split; [|reflexivity].
          destruct St as [-> | [-> | ->]]; simpl; auto. }
    reflexivity.
  - eexists. split.
    {
        rewrite <- (append_empty_r
                      (path +++ ": " +++ desc +++ "(" +++ hash +++ ":" +++ digits
                            +++ ") " +++ status)) at 2.
        apply run_complete. simpl.
        exists "", (path +++ ": " +++ desc +++ "(" +++ hash +++ ":" +++ digits
                         +++ ") " +++ status); eexists.
        split; [reflexivity|].
        split; [repeat split|].
        exists path, (": " +++ desc +++ "(" +++ hash +++ ":" +++ digits +++ ") " +++ status); eexists.
        split; [reflexivity|].
        split; [eexists; repeat split; assumption|].
        exists ": ", (desc +++ "(" +++ hash +++ ":" +++ digits +++ ") " +++ status); eexists.
        split; [reflexivity|].
        split; [repeat split|].
        exists (desc +++ "(" +++ hash +++ ":" +++ digits +++ ") "), status; eexists.
        split; [repeat (rewrite append_assoc; simpl); reflexivity|].
        split.
        + left. eexists. split; [|reflexivity].
          exists desc, ("(" +++ hash +++ ":" +++ digits +++ ") "); eexists.
          split; [reflexivity|].
          split; [eexists; repeat split; assumption|].
          exists ("(" +++ hash +++ ":" +++ digits +++ ")"), " "; eexists.
          split; [repeat (rewrite append_assoc; simpl); reflexivity|].
          split; [|repeat split].
          left. eexists. split; [|reflexivity].
          exists "(", (hash +++ ":" +++ digits +++ ")"); eexists. split; [reflexivity|].
          split; [repeat split|].
          exists hash, (":" +++ digits +++ ")"); eexists. split; [reflexivity|].
          split; [eexists; split; [eexists; repeat split; assumption | reflexivity]|].
          exists ":", (digits +++ ")"); eexists. split; [reflexivity|].
          split; [repeat split|].
          exists digits, ")"; eexists. split; [reflexivity|].
          split; [eexists; repeat split; assumption | repeat split].
        + exists status, ""; eexists. split; [now rewrite append_empty_r|].
          split; [|repeat split].
          eexists. split; [|reflexivity].
          destruct St as [-> | [-> | ->]]; simpl; auto. }
    reflexivity.
Qed.

Lemma search_head (s : string) (cs : caps) :
  search resultRegex 0 s = Some cs ->
  exists x rest c tl,
    run resultRegex 0 s (repeat None 9) = (x, rest, c) :: tl /\ cs = setCap 0 x c.
Proof.
  rewrite search_unfold.
  change (S (NumSubexp resultRegex)) with 9.
  destruct (run resultRegex 0 s (repeat None 9)) as [|[[x rest] c] l].
  - destruct s; [discriminate | now rewrite search_anchored].
  - intro H. inversion H. exists x, rest, c, l. split; reflexivity.
Qed.

Lemma capsOf_Cat (r1 r2 : regex) (pos : nat) (s : string) (c : caps) :
  capsOf (run (Cat r1 r2) pos s c)
  = flat_map (fun t1 : thread =>
                capsOf (run r2 (pos + String.length (fst (fst t1)))
                            (snd (fst t1)) (snd t1)))
             (run r1 pos s c).
Proof.
  unfold capsOf. cbn [run]. rewrite map_of_flat_map.
  apply flat_map_ext. intros [[x1 rest1] c1]. rewrite map_map.
  apply map_ext. intros [[x2 rest2] c2]. reflexivity.
Qed.

Lemma capsOf_sound (r : regex) (pos : nat) (s : string) (c cf : caps) :
  In cf (capsOf (run r pos s c)) ->
  exists x rest, s = x +++ rest /\ matches r pos x rest c cf.
Proof.
  unfold capsOf. intro H. apply in_map_iff in H.
  destruct H as [[[x rest] c'] [E H]]. simpl in E. subst c'.
  exists x, rest. now apply run_sound.
Qed.

Lemma descBody_groups : ~ In 3 (map fst (groups descBody)).
Proof. simpl. intuition discriminate. Qed.

Lemma tailStatus_groups : ~ In 3 (map fst (groups tailStatus)).
Proof. simpl. intuition discriminate. Qed.

(** the threads behind the separator: those of the description group, one
    batch per candidate description, then those without the group *)
Lemma tailDesc_threads (pos : nat) (body : string) (c : caps) :
  3 < List.length c ->
  exists G : string * string -> list caps,
    capsOf (run tailDesc pos body c)
    = flat_map G (plusRuns notColon body)
      ++ capsOf (run tailStatus (pos + 0) body c) /\
    (forall xr cf, In cf (G xr) -> nth 3 cf None = Some (fst xr)) /\
    (forall cf, In cf (capsOf (run tailStatus (pos + 0) body c)) ->
                nth 3 cf None = nth 3 c None).
Proof.
  intro Hlen.
  exists (fun xr =>
            flat_map (fun t2 : thread =>
                        capsOf (run tailStatus
                                    (pos + String.length (fst xr +++ fst (fst t2)))
                                    (snd (fst t2))
                                    (setCap 2 (fst xr +++ fst (fst t2)) (snd t2))))
                     (run descBody (pos + String.length (fst xr)) (snd xr)
                          (setCap 3 (fst xr) c))).
  split; [|split].
  - unfold tailDesc. rewrite capsOf_Cat.
    change (run (Quest descGroup) pos body c)
      with (run descGroup pos body c ++ [("", body, c)]).
    rewrite flat_map_app. f_equal; [|simpl; now rewrite app_nil_r].
    change (run descGroup pos body c)
      with (map (fun t : thread => let '(x, rest, c1) := t in (x, rest, setCap 2 x c1))
                (flat_map
                   (fun t1 : thread =>
                      let '(x1, rest1, c1) := t1 in
                      map (fun t2 : thread =>
                             let '(x2, rest2, c2) := t2 in (x1 +++ x2, rest2, c2))
                          (run descBody (pos + String.length x1) rest1 c1))
                   (map (fun t : thread =>
                           let '(x, rest, c1) := t in (x, rest, setCap 3 x c1))
                        (map (fun xr => (fst xr, snd xr, c))
                             (plusRuns notColon body))))).
    rewrite flat_map_of_map, !flat_map_of_map, flat_map_of_flat_map.
    apply flat_map_ext. intros [d r]. cbn [fst snd].
    rewrite flat_map_of_map. apply flat_map_ext. intros [[x2 rest2] c2].
    reflexivity.
  - intros [d r] cf H. cbn [fst snd] in *.
    apply in_flat_map in H. destruct H as [[[x2 rest2] c2] [H2 H4]].
    cbn [fst snd] in H4.
    apply run_sound in H2. destruct H2 as [_ M2].
    apply capsOf_sound in H4. destruct H4 as [x4 [rest4 [_ M4]]].
    destruct (matches_preserves 3 descBody descBody_groups _ _ _ _ _ M2) as [E2 L2].
    destruct (matches_preserves 3 tailStatus tailStatus_groups _ _ _ _ _ M4) as [E4 _].
    rewrite E4, nth_setCap_other, E2 by lia.
    apply nth_setCap_same. exact Hlen.
  - intros cf H. apply capsOf_sound in H. destruct H as [x4 [rest4 [_ M4]]].
    now destruct (matches_preserves 3 tailStatus tailStatus_groups _ _ _ _ _ M4).
Qed.

(** among the threads behind the separator, the first has the longest
    description *)
Lemma tailDesc_greedy (pos : nat) (body : string) (c cf cf' : caps)
      (tl : list caps) (d' : string) :
  3 < List.length c -> nth 3 c None = None ->
  capsOf (run tailDesc pos body c) = cf :: tl ->
  In cf' (capsOf (run tailDesc pos body c)) ->
  nth 3 cf' None = Some d' ->
  exists d, nth 3 cf None = Some d /\ String.length d' <= String.length d.
Proof.
  intros Hlen Hnone Hhd Hin Hd'.
  destruct (tailDesc_threads pos body c Hlen) as [G [E [P1 P2]]].
  rewrite E in Hhd, Hin.
  apply in_app_or in Hin. destruct Hin as [Hin | Hin].
  2:{ rewrite (P2 cf' Hin), Hnone in Hd'. discriminate Hd'. }
  apply in_flat_map in Hin. destruct Hin as [a' [Ha' Hcf']].
  pose proof (P1 a' cf' Hcf') as Ea'. rewrite Hd' in Ea'. inversion Ea'; subst d'.
  destruct (flat_map G (plusRuns notColon body)) as [|t0 tl0] eqn:FM.
  { exfalso. assert (X : In cf' (flat_map G (plusRuns notColon body)))
      by (apply in_flat_map; eauto). rewrite FM in X. exact X. }
  simpl in Hhd. inversion Hhd; subst t0.
  destruct (flat_map_head_max (fun xr => String.length (fst xr)) G _ _ _
                              (plusRuns_sorted notColon body) FM)
    as [a [Ha [Hcf Hmax]]].
  exists (fst a). split; [now apply P1|].
  apply (Hmax a' Ha'). intro X. rewrite X in Hcf'. exact Hcf'.
Qed.

Lemma capsOf_top (line : string) (c : caps) :
  capsOf (run resultRegex 0 line c) = capsOf (run tailPath 0 line c).
Proof.
  change resultRegex with (Cat BeginText tailPath).
  rewrite capsOf_Cat. simpl. now rewrite app_nil_r.
Qed.

Lemma capsOf_tailPath (line : string) (c : caps) :
  capsOf (run tailPath 0 line c)
  = flat_map (fun xr => capsOf (run tailSep (0 + String.length (fst xr)) (snd xr)
                                    (setCap 1 (fst xr) c)))
             (plusRuns notColon line).
Proof.
  unfold tailPath. rewrite capsOf_Cat.
  change (run (Cap 1 "path" (Plus notColon)) 0 line c)
    with (map (fun t : thread => let '(x, rest, c1) := t in (x, rest, setCap 1 x c1))
              (map (fun xr => (fst xr, snd xr, c)) (plusRuns notColon line))).
  rewrite !flat_map_of_map. apply flat_map_ext. intros [p r]. reflexivity.
Qed.

Lemma capsOf_tailSep (pos : nat) (r : string) (c : caps) :
  capsOf (run tailSep pos r c) <> [] ->
  exists body, r = ": " +++ body /\
               capsOf (run tailSep pos r c) = capsOf (run tailDesc (pos + 2) body c).
Proof.
  unfold tailSep. rewrite capsOf_Cat. cbn [run].
  destruct (stripPrefix ": " r) as [body|] eqn:E; [|intro H; now contradiction H].
  intros _. exists body. split; [now apply stripPrefix_sound|].
  simpl. now rewrite app_nil_r.
Qed.

(** the first thread of the search and the thread of any reading of the
    line are threads of one and the same search behind the separator *)
Lemma search_threads (line : string) (ms ms' : list string) :
  FindStringSubmatch resultRegex line = Some ms ->
  lineForm line ms' ->
  exists pos body c cf cf' tl,
    3 < List.length c /\ nth 3 c None = None /\
    capsOf (run tailDesc pos body c) = cf :: tl /\
    In cf' (capsOf (run tailDesc pos body c)) /\
    nth 3 ms "" = capText (nth 3 cf None) /\
    nth 3 ms' "" = capText (nth 3 cf' None).
Proof.
  intros H F'.
  unfold FindStringSubmatch in H.
  destruct (search resultRegex 0 line) as [cs|] eqn:S; [|discriminate H].
  inversion H; subst ms. clear H.
  destruct (search_head line cs S) as [x [rest [cf [tl [R ->]]]]].
  destruct (forms_thread line ms' F') as [cf' [Hin' <-]].
  assert (Hhd : capsOf (run resultRegex 0 line (repeat None 9)) = cf :: capsOf tl)
    by (rewrite R; reflexivity).
  assert (Hc' : In cf' (capsOf (run resultRegex 0 line (repeat None 9))))
    by (unfold capsOf; apply in_map_iff; exists (line, "", cf'); auto).
  rewrite capsOf_top, capsOf_tailPath in Hhd, Hc'.
  destruct (flat_map_head _ _ _ _ Hhd) as [[p r] [tl0 [Hp Hg]]].
  apply in_flat_map in Hc'. destruct Hc' as [[p' r'] [Hp' Hg']].
  cbn [fst snd] in Hg, Hg'.
  destruct (capsOf_tailSep (0 + String.length p) r (setCap 1 p (repeat None 9)))
    as [body [Er Eb]]; [rewrite Hg; discriminate|].
  destruct (capsOf_tailSep (0 + String.length p') r' (setCap 1 p' (repeat None 9)))
    as [body' [Er' Eb']]; [intro X; rewrite X in Hg'; exact Hg'|].
  destruct (plusRuns_sound _ _ _ _ Hp) as [L [_ P]].
  destruct (plusRuns_sound _ _ _ _ Hp') as [L' [_ P']].
  subst r r'. rewrite L in L' at 1. simpl in L'.
  destruct (split_first notColon ":" _ _ _ _ eq_refl P P' L') as [<- B].
  injection B as <-.
  rewrite Eb in Hg. rewrite Eb' in Hg'.
  exists (0 + String.length p + 2), body, (setCap 1 p (repeat None 9)), cf, cf', tl0.
  split; [rewrite length_setCap; simpl; lia|].
  split; [reflexivity|].
  split; [exact Hg|]. split; [exact Hg'|].
  change "" with (capText None).
  rewrite !map_nth, !nth_setCap_other by discriminate. split; reflexivity.
Qed.

(** X25: where a line can be read in the grammar in more than one way
    (parentheses in the description or the hash), [FindStringSubmatch]
    returns the reading with the longest description: no other reading of
    the line has a longer one. *)
Theorem description_longest (line : string) (ms ms' : list string) :
  FindStringSubmatch resultRegex line = Some ms ->
  lineForm line ms' ->
  String.length (nth 3 ms' "") <= String.length (nth 3 ms "").
Proof.
  intros H F'.
  destruct (search_threads line ms ms' H F')
    as (pos & body & c & cf & cf' & tl & Hl & Hn & Hhd & Hin & -> & ->).
  destruct (nth 3 cf' None) as [d'|] eqn:D'; [|simpl; lia].
  destruct (tailDesc_greedy _ _ _ _ _ _ _ Hl Hn Hhd Hin D') as [d [-> Hle]].
  exact Hle.
Qed.

Lemma description_longest_witness :
  String.length (nth 3 ["p: d(x(h:1) FOUND"; "p"; "d(x(h:1) "; "d"; "(x(h:1)";
                        "x(h"; "x(h"; "1"; "FOUND"] "")
  <= String.length (nth 3 ["p: d(x(h:1) FOUND"; "p"; "d(x(h:1) "; "d(x"; "(h:1)";
                           "h"; "h"; "1"; "FOUND"] "").
Proof.
  apply (description_longest "p: d(x(h:1) FOUND").
  - vm_compute. reflexivity.
  - apply (form_sig "p" "d" "x(h" "1" "FOUND");
      try (split; [discriminate | reflexivity]).
    left. reflexivity.
Defined.

Lemma split_longer (a a' b b' : string) :
  allb notParen b = true ->
  a +++ String "(" b = a' +++ String "(" b' ->
  String.length a <= String.length a' ->
  a = a' /\ b = b'.
Proof.
  intro Hb. revert a'. induction a as [|y a IH]; intros [|x a'] E L; simpl in *.
  - inversion E. auto.
  - inversion E; subst. rewrite allb_append in Hb. simpl in Hb.
    rewrite andb_false_r in Hb. discriminate Hb.
  - lia.
  - inversion E; subst. destruct (IH a' H1) as [-> ->]; [lia | auto].
Qed.

(** X9: the line [path: desc(hash:digits) status], where [path], [desc]
    and [hash] are non-empty and colon-free, [hash] contains no opening
    parenthesis and [digits] is a decimal number, is parsed into exactly
    these parts, even when the description contains parentheses; the size
    is the number when it fits [int] and zero otherwise. *)
Theorem parse_signature_line (path desc hash digits status : string) :
  colonFree path -> colonFree desc -> colonFree hash ->
  allb notParen hash = true ->
  digitString digits -> isStatus status ->
  parseResult (path +++ ": " +++ desc +++ "(" +++ hash +++ ":" +++ digits
                    +++ ") " +++ status)
  = mkScanResult (path +++ ": " +++ desc +++ "(" +++ hash +++ ":" +++ digits
                       +++ ") " +++ status)
                 desc path hash (sizeOf digits) status.
Proof.
  intros P D H Hp N St.
  set (body := desc +++ "(" +++ hash +++ ":" +++ digits +++ ") " +++ status).
  pose proof (form_sig path desc hash digits status P D H N St) as F0.
  fold body in F0.
  destruct (FindStringSubmatch resultRegex (path +++ ": " +++ body))
    as [ms|] eqn:E.
  2:{ exfalso. revert E. apply (forms_matched _ _ F0). }
  rewrite (parseResult_accepted _ ms E).
  assert (G : String.length desc <= String.length (nth 3 ms "")).
  { destruct (search_threads _ ms _ E F0)
      as (pos & b & c & cf & cf' & tl & Hl & Hn & Hhd & Hin & -> & E').
    cbn [nth] in E'.
    destruct (nth 3 cf' None) as [d'|] eqn:D'; simpl in E'.
    - subst d'.
      destruct (tailDesc_greedy _ _ _ _ _ _ _ Hl Hn Hhd Hin D') as [d [-> Hle]].
      exact Hle.
    - rewrite E'. simpl. lia. }
  apply FindStringSubmatch_forms in E.
  assert (Bc : body = (desc +++ "(" +++ hash)
                        +++ String ":" ((digits +++ ") ") +++ status)).
  { unfold body. repeat (rewrite append_assoc; simpl). reflexivity. }
  destruct (lineForm_body path body ms P E)
    as [-> [St' [[B _] | [[B [[_ D'] _]] | [B [[_ D'] [[_ H'] _]]]]]]].
  - exfalso. apply (f_equal (allb notColon)) in B.
    rewrite Bc, has_colon, (status_colonFree _ St') in B. discriminate B.
  - exfalso. apply (f_equal (allb notColon)) in B.
    rewrite Bc, has_colon, !allb_append, D', (status_colonFree _ St') in B.
    discriminate B.
  - rewrite Bc in B.
    assert (C1 : allb notColon (desc +++ "(" +++ hash) = true)
      by (rewrite !allb_append, (proj2 D), (proj2 H); reflexivity).
    assert (C2 : allb notColon (nth 3 ms "" +++ "(" +++ nth 5 ms "") = true)
      by (rewrite !allb_append, D', H'; reflexivity).
    destruct (split_first notColon ":" _ _ _ _ eq_refl C1 C2 B) as [B1 B2].
    destruct (status_suffix _ _ _ _ St St' B2) as [U <-].
    apply append_cancel_r in U.
    destruct (split_longer _ _ _ _ Hp B1 G) as [<- <-].
    rewrite <- U. reflexivity.
Qed.

Lemma parse_signature_line_witness :
  parseResult ("/tmp/file" +++ ": " +++ "Eicar (test)" +++ "("
                 +++ "abcd1234" +++ ":" +++ "68" +++ ") " +++ "FOUND")
  = mkScanResult ("/tmp/file" +++ ": " +++ "Eicar (test)" +++ "("
                    +++ "abcd1234" +++ ":" +++ "68" +++ ") " +++ "FOUND")
                 "Eicar (test)" "/tmp/file" "abcd1234" (sizeOf "68") "FOUND".
Proof.
  apply (parse_signature_line "/tmp/file" "Eicar (test)" "abcd1234" "68" "FOUND");
    try reflexivity; try (split; [discriminate | reflexivity]).
  left. reflexivity.
Defined.

(** X26: [ScanStream] relays what the source delivers and nothing else.
    On a connection whose writes succeed, when the call returns, the writes
    are the command, then one data frame for each non-empty read of the
    source, in the order of the reads and with the bytes of the read as
    payload, then the terminator; reads of zero bytes are skipped. *)
Theorem ScanStream_relays_reads {St : Type} (r : Reader St) (st : St) (fuel : nat)
        (w : World) (c : Clamd) (log : list (list Z)) (inc : string)
        (conn' : CLAMDConn) (res : list ScanResult + error) :
  snd (newConnection w c) = inl (mkConn log [] inc) ->
  ScanStream w c r st fuel = Some (Ret (Some conn', res)) ->
  written conn'
  = log ++ [bytesOf ("nINSTREAM" +++ String LF "")]
        ++ frames (filter (fun d => Nat.ltb 0 (List.length d)) (sourceReads r fuel st))
        ++ [[0; 0; 0; 0]%Z] /\
  res = inl (readLoop "" inc).
Proof.
  intros Hc H.
  assert (R : forall fuel st log conn2,
             relay r fuel st (mkConn log [] inc) = Some (Ret conn2) ->
             conn2 = mkConn (log ++ frames (filter (fun d => Nat.ltb 0 (List.length d))
                                                   (sourceReads r fuel st))) [] inc).
  { clear. induction fuel as [|fuel IH]; intros st log conn2 H; [discriminate H|].
    cbn [relay sourceReads] in *.
    destruct (r st CHUNK_SIZE) as [[data err] st']. cbn [filter].
    destruct (Nat.ltb 0 (List.length data)) eqn:Hlo.
    - destruct (Nat.leb (List.length data) CHUNK_SIZE); [|discriminate H].
      rewrite sendChunk_healthy in H. cbn [fst] in H.
      change (data :: ?l) with ([data] ++ l).
      destruct err as [e|].
      + inversion H; subst. cbn [filter app]. unfold frames. cbn [flat_map app].
        reflexivity.
      + rewrite (IH _ _ _ H).
        change (data :: filter (fun d => Nat.ltb 0 (List.length d))
                               (sourceReads r fuel st'))
          with ([data] ++ filter (fun d => Nat.ltb 0 (List.length d))
                                 (sourceReads r fuel st')).
        rewrite frames_app, app_assoc. reflexivity.
    - destruct err as [e|].
      + inversion H; subst. cbn [filter]. unfold frames. cbn [flat_map].
        now rewrite app_nil_r.
      + now apply IH. }
  unfold ScanStream in H. rewrite Hc in H.
  unfold sendCommand in H. rewrite Write_healthy in H. cbn [fst] in H.
  destruct (relay r fuel st _) as [[conn2 | msg] |] eqn:E; try discriminate H.
  apply R in E. subst conn2.
  unfold sendEOF in H. rewrite Write_healthy in H.
  inversion H; subst. clear H. cbn [written]. split.
  - rewrite <- !app_assoc. reflexivity.
  - reflexivity.
Qed.

Lemma ScanStream_relays_reads_witness :
  written (mkConn [bytesOf ("nINSTREAM" +++ String LF ""); [0; 0; 0; 2]%Z; [88; 53]%Z;
                   [0; 0; 0; 1]%Z; [79]%Z; [0; 0; 0; 0]%Z] [] "")
  = [] ++ [bytesOf ("nINSTREAM" +++ String LF "")]
       ++ frames (filter (fun d => Nat.ltb 0 (List.length d))
                         (sourceReads (halfReader (halfReader (halfReader
                            (halfReader (halfReader (halfReader (halfReader
                            (halfReader (halfReader bytesReader)))))))))
                                      4 [88; 53; 79]%Z))
       ++ [[0; 0; 0; 0]%Z] /\
  (inl (readLoop "" "") : list ScanResult + error) = inl (readLoop "" "").
Proof.
  apply (ScanStream_relays_reads
           (halfReader (halfReader (halfReader (halfReader (halfReader
              (halfReader (halfReader (halfReader (halfReader bytesReader)))))))))
           [88; 53; 79]%Z 4
           (healthyWorld "") (NewClamd "/tmp/clamd.socket") [] "").
  - reflexivity.
  - vm_compute. reflexivity.
Defined.
